(** * godotfiles: a shallow embedding of [main.go] and its command contracts

    The program is a thin command-line front end over a version-control
    engine.  Its own logic is string and path manipulation plus the order
    in which engine operations are called and how their errors are
    propagated.  The embedding has three layers:

    - Go strings and the [strings] / [path/filepath] helpers the program
      calls, at byte level with the Unix separator, loop by loop as the
      Go standard library writes them;
    - the outside world (file system, environment, SSH agent, VCS engine)
      as an abstract deterministic state machine answering typed
      operations, every call and every printed line being recorded in a
      trace;
    - the command functions of [main.go], written in an error monad over
      that world ([if err != nil { return }] is the bind), and [main]
      with its dispatch switch.

    The properties follow: facts on the string and path helpers, the
    algebra of runs, and one contract per command. *)

From Stdlib Require Import Ascii String.
From stdpp Require Import base option list strings gmap fin_maps.

Local Open Scope string_scope.
Local Open Scope list_scope.
Local Open Scope nat_scope.

(** ** Go strings *)

Module GoString.

(** [len(s)] *)
Definition len (s : string) : nat := String.length s.

(** [s[i:]] *)
Fixpoint slice_from (i : nat) (s : string) : string :=
  match i, s with
  | 0, _ => s
  | S i', String _ s' => slice_from i' s'
  | S _, EmptyString => EmptyString
  end.

(** [s[:j]] *)
Fixpoint slice_to (j : nat) (s : string) : string :=
  match j, s with
  | 0, _ => EmptyString
  | S j', String c s' => String c (slice_to j' s')
  | S _, EmptyString => EmptyString
  end.

(** [s[i]], [None] when out of range *)
Definition byte_at (i : nat) (s : string) : option ascii := String.get i s.

(** [strings.HasPrefix] *)
Definition HasPrefix (s prefix : string) : bool :=
  (len prefix <=? len s) && String.eqb (slice_to (len prefix) s) prefix.

(** [strings.HasSuffix] *)
Definition HasSuffix (s suffix : string) : bool :=
  (len suffix <=? len s) && String.eqb (slice_from (len s - len suffix) s) suffix.

(** [strings.TrimPrefix] *)
Definition TrimPrefix (s prefix : string) : string :=
  if HasPrefix s prefix then slice_from (len prefix) s else s.

(** [strings.TrimSuffix] *)
Definition TrimSuffix (s suffix : string) : string :=
  if HasSuffix s suffix then slice_to (len s - len suffix) s else s.

(** [strings.Join] *)
Fixpoint Join (elems : list string) (sep : string) : string :=
  match elems with
  | [] => ""
  | [e] => e
  | e :: rest => e +:+ sep +:+ Join rest sep
  end.

End GoString.

(** ** [path/filepath] on Unix *)

Module filepath.
Import GoString.

Definition Separator : ascii := "/"%char.

(** [os.IsPathSeparator] *)
Definition IsPathSeparator (c : ascii) : bool := Ascii.eqb c Separator.

Definition is_sep_at (i : nat) (s : string) : bool :=
  match byte_at i s with
  | Some c => IsPathSeparator c
  | None => false
  end.

Definition is_dot_at (i : nat) (s : string) : bool :=
  match byte_at i s with
  | Some c => Ascii.eqb c "."%char
  | None => false
  end.

(** [filepath.IsAbs] *)
Definition IsAbs (path : string) : bool := HasPrefix path "/".

(** The backward scan of [filepath.Ext]: [k] is [i + 1]. *)
Fixpoint Ext_scan (path : string) (k : nat) : string :=
  match k with
  | 0 => ""
  | S i =>
      if is_sep_at i path then ""
      else if is_dot_at i path then slice_from i path
      else Ext_scan path i
  end.

(** [filepath.Ext] *)
Definition Ext (path : string) : string := Ext_scan path (len path).

(** Length left after the loop that strips trailing separators. *)
Fixpoint strip_trailing_seps (path : string) (k : nat) : nat :=
  match k with
  | 0 => 0
  | S i => if is_sep_at i path then strip_trailing_seps path i else k
  end.

(** The backward scan for the last separator: returns [i + 1], so [0]
    stands for the loop ending with [i = -1]. *)
Fixpoint last_elem_start (path : string) (k : nat) : nat :=
  match k with
  | 0 => 0
  | S i => if is_sep_at i path then k else last_elem_start path i
  end.

(** [filepath.Base] *)
Definition Base (path : string) : string :=
  if String.eqb path "" then "."
  else
    let path := slice_to (strip_trailing_seps path (len path)) path in
    let path := slice_from (last_elem_start path (len path)) path in
    if String.eqb path "" then "/" else path.

(** The backtracking loop of [filepath.Clean] on a [..] element:
    [w] has already been decremented once. *)
Fixpoint Clean_backtrack (buf : string) (dotdot w : nat) : nat :=
  match w with
  | 0 => 0
  | S w' =>
      if (dotdot <? w) && negb (is_sep_at w buf)
      then Clean_backtrack buf dotdot w'
      else w
  end.

(** The inner loop copying one path element. *)
Fixpoint Clean_copy (fuel : nat) (path : string) (r : nat) (out : string)
  : nat * string :=
  match fuel with
  | 0 => (r, out)
  | S fuel' =>
      match byte_at r path with
      | Some c =>
          if IsPathSeparator c then (r, out)
          else Clean_copy fuel' path (S r) (out +:+ String c "")
      | None => (r, out)
      end
  end.

(** The main loop of [filepath.Clean]; the output buffer is the string
    [out], whose length is the write index [w]. *)
Fixpoint Clean_loop (fuel : nat) (path : string) (rooted : bool)
    (r : nat) (out : string) (dotdot : nat) : string :=
  match fuel with
  | 0 => out
  | S fuel' =>
      let n := len path in
      if negb (r <? n) then out
      else if is_sep_at r path then
        Clean_loop fuel' path rooted (r + 1) out dotdot
      else if is_dot_at r path && ((r + 1 =? n) || is_sep_at (r + 1) path) then
        Clean_loop fuel' path rooted (r + 1) out dotdot
      else if is_dot_at r path && is_dot_at (r + 1) path
              && ((r + 2 =? n) || is_sep_at (r + 2) path) then
        if dotdot <? len out then
          let w := Clean_backtrack out dotdot (len out - 1) in
          Clean_loop fuel' path rooted (r + 2) (slice_to w out) dotdot
        else if negb rooted then
          let out := if 0 <? len out then out +:+ "/" else out in
          let out := out +:+ ".." in
          Clean_loop fuel' path rooted (r + 2) out (len out)
        else
          Clean_loop fuel' path rooted (r + 2) out dotdot
      else
        let out :=
          if (rooted && negb (len out =? 1)) || (negb rooted && negb (len out =? 0))
          then out +:+ "/" else out in
        let '(r', out') := Clean_copy n path r out in
        Clean_loop fuel' path rooted r' out' dotdot
  end.

(** [filepath.Clean] *)
Definition Clean (path : string) : string :=
  if String.eqb path "" then "."
  else
    let rooted := is_sep_at 0 path in
    let out :=
      if rooted
      then Clean_loop (len path) path rooted 1 "/" 1
      else Clean_loop (len path) path rooted 0 "" 0 in
    if len out =? 0 then "." else out.

(** The loop of [filepath.Join]: skip leading empty elements. *)
Fixpoint Join (elem : list string) : string :=
  match elem with
  | [] => ""
  | e :: rest =>
      if String.eqb e "" then Join rest
      else Clean (GoString.Join elem (String Separator ""))
  end.

End filepath.


(** ** Values exchanged with the outside world *)

(** A Go [error] is represented by its message. *)
Definition error : Type := string.

Inductive result (A : Type) : Type :=
| Ok (a : A)
| Err (e : error).
Arguments Ok {A} a.
Arguments Err {A} e.

Definition result_err {A : Type} (r : result A) : option error :=
match r with
| Ok _ => None
| Err e => Some e
end.

(** The line feed written by [\n] and by [fmt.Println]. *)
Definition nl : string := String (ascii_of_nat 10) "".

(** [object.Signature], restricted to the fields the program sets. *)
Record Signature : Type := { Name : string; Email : string }.

(** go-git's [StatusCode] is a one-byte code; the three constants below are
    the library's values for the codes the program tests. *)
Definition StatusCode : Type := ascii.
Definition Modified : StatusCode := "M"%char.
Definition Added : StatusCode := "A"%char.
Definition Deleted : StatusCode := "D"%char.

(** go-git's [FileStatus]. *)
Record FileStatus : Type :=
  { Staging : StatusCode; Worktree : StatusCode; Extra : string }.

(** go-git's [Status] is [map[string]*FileStatus]. *)
Abbreviation Status := (gmap string FileStatus).

(** Handles returned by the engine.  [osfs.New] only wraps a directory
    name, so a file system is represented by that name.  [WorktreeH] is
    go-git's [Worktree] type, renamed because [Worktree] already names the
    field of [FileStatus]. *)
Record AuthMethod : Type := { auth_user : string }.
Record Storer : Type := { storer_fs : string }.
Record Repository : Type := { repo_Storer : Storer; repo_wt : option string }.
Record WorktreeH : Type := { wt_repo : Repository }.
Definition Hash : Type := string.

(** The fallible operations the program delegates to its collaborators. *)
Inductive Op : Type :=
| ReadDir (dirname : string)
| Getwd
| NewSSHAgentAuth (user : string)
| PlainClone (path : string) (isBare : bool) (url : string) (auth : AuthMethod)
| NewStorage (fs : string)
| Open (s : Storer) (worktree : string)
| GetWorktree (r : Repository)
| Checkout (w : WorktreeH) (force : bool)
| WtStatus (w : WorktreeH)
| Add (w : WorktreeH) (path : string)
| Commit (w : WorktreeH) (msg : string) (all : bool) (author : Signature)
| Push (r : Repository) (auth : AuthMethod)
| Pull (r : Repository) (auth : AuthMethod).

(** What each operation returns besides its [error]; [ReadDir] yields the
    entry names, the only part of [os.FileInfo] the program reads. *)
Definition ret_ty (o : Op) : Type :=
match o with
| ReadDir _ => list string
| Getwd => string
| NewSSHAgentAuth _ => AuthMethod
| PlainClone _ _ _ _ => Repository
| NewStorage _ => Storer
| Open _ _ => Repository
| GetWorktree _ => WorktreeH
| Checkout _ _ => unit
| WtStatus _ => Status
| Add _ _ => Hash
| Commit _ _ _ _ => Hash
| Push _ _ => unit
| Pull _ _ => unit
end.

(** The outside world: a deterministic state machine answering the
    operations, the process environment, and the order in which the Go
    runtime visits a map in a [range] loop. *)
Record World (St : Type) : Type :=
  { respond : St -> forall o : Op, result (ret_ty o) * St;
    environ : St -> string -> string;
    map_order : St -> Status -> list (string * FileStatus) }.
Arguments respond {St} _ _ _.
Arguments environ {St} _ _ _.
Arguments map_order {St} _ _ _.

(** What an observer sees of a run, in chronological order. *)
Inductive Event : Type :=
| Printed (text : string)
| Called (o : Op) (err : option error).

(** The outcome of running a computation from some world state. *)
Record Run (St A : Type) : Type :=
  { res : result A; final : St; events : list Event }.
Arguments res {St A} _.
Arguments final {St A} _.
Arguments events {St A} _.

(** Computations: error monad over the world state, writing the trace. *)
Definition M (St A : Type) : Type := St -> Run St A.

Definition ret {St A : Type} (a : A) : M St A :=
fun s => {| res := Ok a; final := s; events := [] |}.

Definition fail {St A : Type} (e : error) : M St A :=
fun s => {| res := Err e; final := s; events := [] |}.

Definition bind {St A B : Type} (m : M St A) (k : A -> M St B) : M St B :=
fun s =>
  let r1 := m s in
  match res r1 with
  | Ok a =>
      let r2 := k a (final r1) in
      {| res := res r2; final := final r2; events := events r1 ++ events r2 |}
  | Err e => {| res := Err e; final := final r1; events := events r1 |}
  end.

Declare Scope go_scope.
Delimit Scope go_scope with go.
Notation "'do' x <- m ; k" := (bind m (fun x => k))
  (at level 10, x name, m at level 100, k at level 200) : go_scope.
Notation "'run' m ; k" := (bind m (fun _ => k))
  (at level 10, m at level 100, k at level 200) : go_scope.
Local Open Scope go_scope.

(** [for _, x := range l { ... }] with a body that may return an error. *)
Fixpoint forM_ {St A : Type} (l : list A) (body : A -> M St unit) : M St unit :=
match l with
| [] => ret tt
| x :: rest => run body x; forM_ rest body
end.

(** ** The program *)

Import GoString.

Definition dotfilesBasedir : string := "./dotfiles".
Definition dotfilesWorkdir : string := "./workdir".

(** The values kingpin stores behind the argument and flag pointers. *)
Record Args : Type :=
  { initRepo : string;
    pullRepo : string;
    addRepo : string;
    addFile : string;
    saveRepo : string;
    saveMsg : string;
    undoRepo : string;
    listVerbose : bool;
    statusRepo : string }.

Section Program.
Context {St : Type} (W : World St).

(** Run one operation: the world answers, the call is recorded with its
    error, and the Go-style pair (value, error) is handed back. *)
Definition perform (o : Op) : M St (result (ret_ty o)) :=
fun s =>
  let '(r, s') := respond W s o in
  {| res := Ok r; final := s'; events := [Called o (result_err r)] |}.

(** An operation followed by [if err != nil { return }]. *)
Definition call (o : Op) : M St (ret_ty o) :=
do r <- perform o;
match r with
| Ok a => ret a
| Err e => fail e
end.

(** [fmt.Printf] / [fmt.Println] with the text already formatted. *)
Definition print (text : string) : M St unit :=
fun s => {| res := Ok tt; final := s; events := [Printed text] |}.

(** [os.Getenv] *)
Definition Getenv (key : string) : M St string :=
fun s => {| res := Ok (environ W s key); final := s; events := [] |}.

(** The entries a [range] loop over a map visits, in visiting order. *)
Definition range_map (m : Status) : M St (list (string * FileStatus)) :=
fun s => {| res := Ok (map_order W s m); final := s; events := [] |}.

(** [filepath.Abs]: the Go pair (path, error), never raising by itself. *)
Definition Abs (path : string) : M St (string * option error) :=
if filepath.IsAbs path then ret (filepath.Clean path, None)
else
  do wd <- perform Getwd;
  match wd with
  | Ok wd => ret (filepath.Join [wd; path], None)
  | Err e => ret ("", Some e)
  end.

Definition getAuthMethod : M St AuthMethod :=
do sshAuth <- call (NewSSHAgentAuth "git");
ret sshAuth.

Definition getAuthor : M St Signature :=
do name <- Getenv "GIT_AUTHOR_NAME";
do email <- Getenv "GIT_AUTHOR_EMAIL";
let sig := {| Name := name; Email := email |} in
if String.eqb (Name sig) "" || String.eqb (Email sig) ""
then fail "GIT_AUTHOR_NAME and GIT_AUTHOR_EMAIL envionment variables must exist."
else ret sig.

Definition baseName (repoUrl : string) : M St string :=
ret (filepath.Base repoUrl).

Definition openWorkingRepo (repoName : string) : M St Repository :=
let repoPath := filepath.Join [dotfilesBasedir; repoName +:+ ".git"] in
do repoStorer <- call (NewStorage repoPath);
do workingRepo <- call (Open repoStorer dotfilesWorkdir);
ret workingRepo.

Definition executeInit (repoUrl : string) : M St unit :=
run print ("Initialising repo " +:+ repoUrl +:+ nl);
do baseName <- baseName repoUrl;
run print ("Repo basename = " +:+ baseName +:+ nl);
let basePath := filepath.Join [dotfilesBasedir; baseName] in
run print ("Repo basepath = " +:+ basePath +:+ nl);
do auth <- getAuthMethod;
do bareRepo <- call (PlainClone basePath true repoUrl auth);
run print ("Workdir = " +:+ dotfilesWorkdir +:+ nl);
do localRepo <- call (Open (repo_Storer bareRepo) dotfilesWorkdir);
do wt <- call (GetWorktree localRepo);
run call (Checkout wt true);
ret tt.

(** The [switch] with two [fallthrough]s in the status loop. *)
Definition status_shown (c : StatusCode) : bool :=
Ascii.eqb c Modified || Ascii.eqb c Added || Ascii.eqb c Deleted.

(** The text of [fmt.Printf("[%c] %s\n", s.Worktree, f)]. *)
Definition status_line (f : string) (s : FileStatus) : string :=
"[" +:+ String (Worktree s) "" +:+ "] " +:+ f +:+ nl.

(** The loop building [repoNames] from the directory entries. *)
Definition status_repoNames (files : list string) : list string :=
fold_left (fun repoNames f => repoNames ++ [TrimSuffix f ".git"]) files [].

(** The body of the loop over [repoNames]. *)
Definition status_one (repoName : string) : M St unit :=
run print (repoName +:+ ":" +:+ nl);
do workingRepo <- openWorkingRepo repoName;
do wt <- call (GetWorktree workingRepo);
do status <- call (WtStatus wt);
do entries <- range_map status;
forM_ entries (fun '(f, s) =>
  if status_shown (Worktree s) then print (status_line f s) else ret tt).

Definition executeStatus (repoName : string) : M St unit :=
do repoNames <-
  (if String.eqb repoName "" then
     do files <- call (ReadDir dotfilesBasedir);
     ret (status_repoNames files)
   else ret ([] ++ [repoName]));
forM_ repoNames status_one.

Definition executeAdd (repoName addfile : string) : M St unit :=
run print ("Adding " +:+ addfile +:+ " to " +:+ repoName +:+ nl);
do workingRepo <- openWorkingRepo repoName;
do wt <- call (GetWorktree workingRepo);
do absSrc <- Abs addfile;
do absDst <- Abs dotfilesWorkdir;
let path := TrimPrefix (fst absSrc) (fst absDst) in
let path := TrimPrefix path (String filepath.Separator "") in
run call (Add wt path);
ret tt.

Definition executeList (verbose : bool) : M St unit :=
if verbose then fail "verbose listing not implemented."
else
  do files <- call (ReadDir dotfilesBasedir);
  forM_ files (fun name =>
    let base := TrimSuffix name (filepath.Ext name) in
    print (base +:+ nl)).

Definition executePull (repoName : string) : M St unit :=
do workingRepo <- openWorkingRepo repoName;
do auth <- getAuthMethod;
run call (Pull workingRepo auth);
ret tt.

Definition executeSave (repoName msg : string) : M St unit :=
do workingRepo <- openWorkingRepo repoName;
do wt <- call (GetWorktree workingRepo);
do author <- getAuthor;
run call (Commit wt msg true author);
do auth <- getAuthMethod;
run call (Push workingRepo auth);
ret tt.

(** [main] after kingpin has parsed the command line: [selected] is the
    full name of the chosen command.  The result is the exit status. *)
Definition main (selected : string) (a : Args) : St -> Run St nat :=
fun s =>
  let cmd : M St unit :=
    if String.eqb selected "init" then executeInit (initRepo a)
    else if String.eqb selected "list" then executeList (listVerbose a)
    else if String.eqb selected "status" then executeStatus (statusRepo a)
    else if String.eqb selected "add" then executeAdd (addRepo a) (addFile a)
    else if String.eqb selected "save" then executeSave (saveRepo a) (saveMsg a)
    else if String.eqb selected "pull" then executePull (pullRepo a)
    else ret tt in
  let r := cmd s in
  match res r with
  | Err cmdErr =>
      {| res := Ok 1; final := final r;
         events := events r ++ [Printed (cmdErr +:+ nl)] |}
  | Ok _ => {| res := Ok 0; final := final r; events := events r |}
  end.

End Program.

(** ** Observations on a trace *)

(** The events of a trace selected, and read, by [f]. *)
Fixpoint collect {A : Type} (f : Event -> option A) (tr : list Event) : list A :=
match tr with
| [] => []
| ev :: tr' =>
    match f ev with
    | Some a => a :: collect f tr'
    | None => collect f tr'
    end
end.

(** The staging calls of a run: path and error of each [wt.Add]. *)
Definition add_calls (tr : list Event) : list (string * option error) :=
collect (fun ev => match ev with
                | Called (Add _ path) err => Some (path, err)
                | _ => None
                end) tr.

(** The clone calls of a run: target path, bare flag and URL. *)
Definition clone_calls (tr : list Event) : list (string * bool * string) :=
collect (fun ev => match ev with
                | Called (PlainClone path isBare url _) _ => Some (path, isBare, url)
                | _ => None
                end) tr.

(** The storage directories a run tried to open. *)
Definition storage_calls (tr : list Event) : list string :=
collect (fun ev => match ev with
                | Called (NewStorage fs) _ => Some fs
                | _ => None
                end) tr.

(** Everything written to standard output. *)
Definition printed (tr : list Event) : list string :=
collect (fun ev => match ev with Printed text => Some text | _ => None end) tr.

(** The operations called, without their outcome. *)
Definition called (tr : list Event) : list Op :=
collect (fun ev => match ev with Called o _ => Some o | _ => None end) tr.

Definition is_commit (o : Op) : bool :=
match o with Commit _ _ _ _ => true | _ => false end.

Definition is_push (o : Op) : bool :=
match o with Push _ _ => true | _ => false end.

Definition is_getwd (o : Op) : bool :=
match o with Getwd => true | _ => false end.

(** The three steps of opening a repository with its working tree. *)
Definition is_open_step (o : Op) : bool :=
match o with
| NewStorage _ | Open _ _ | GetWorktree _ => true
| _ => false
end.

(** A failed call whose error the program checks ends the run: nothing
    follows it in the trace and its error is the result.  [unchecked]
    marks the operations whose error the command discards. *)
Definition fail_fast {A : Type} (unchecked : Op -> bool)
    (tr : list Event) (r : result A) : Prop :=
forall pre o e post,
  tr = pre ++ Called o (Some e) :: post ->
  unchecked o = false ->
  post = [] /\ r = Err e.

(** A computation whose every run is fail-fast. *)
Definition fails_fast {St A : Type} (unchecked : Op -> bool) (m : M St A) : Prop :=
forall s, fail_fast unchecked (events (m s)) (res (m s)).

(** No operation is unchecked. *)
Definition all_checked (o : Op) : bool := false.

(** The errors the program raises itself, by [fmt.Errorf]. *)
Definition validation_errors : list error :=
["verbose listing not implemented.";
 "GIT_AUTHOR_NAME and GIT_AUTHOR_EMAIL envionment variables must exist."].

(** An error result is the error of the last event of the run, or one of
    the program's own validation errors. *)
Definition error_origin {A : Type} (tr : list Event) (r : result A) : Prop :=
forall e, r = Err e ->
  (exists pre o, tr = pre ++ [Called o (Some e)]) \/ In e validation_errors.

Definition reports_origin {St A : Type} (m : M St A) : Prop :=
forall s, error_origin (events (m s)) (res (m s)).

(** Error propagation of a command: checked failures end the run, and
    the error returned is the one met. *)
Definition propagates_errors {St A : Type} (unchecked : Op -> bool) (m : M St A)
  : Prop :=
fails_fast unchecked m /\ reports_origin m.

(** The absolute path [filepath.Abs] computes when the working directory
    of the process is [cwd]. *)
Definition abs_in (cwd path : string) : string :=
if filepath.IsAbs path then filepath.Clean path else filepath.Join [cwd; path].

(** The process never changes directory: [os.Getwd] answers [cwd] in
    every state. *)
Definition cwd_is {St : Type} (W : World St) (cwd : string) : Prop :=
forall s, (respond W s Getwd).1 = Ok cwd.

(** A [range] loop visits every entry of a map exactly once. *)
Definition range_visits_all {St : Type} (W : World St) : Prop :=
forall s (m : Status), map_order W s m ≡ₚ map_to_list m.

(** The runs of the status loop body over [names], started in state [s]:
    one per name, in order, up to and including the first that fails. *)
Fixpoint status_runs {St : Type} (W : World St) (names : list string) (s : St)
  : list (Run St unit) :=
match names with
| [] => []
| repoName :: rest =>
    let r := status_one W repoName s in
    r :: match res r with
         | Ok _ => status_runs W rest (final r)
         | Err _ => []
         end
end.

(** [l] is a status line about file [f]: a bracketed one-byte code, a
    blank, the file name and a line feed. *)
Definition is_line_of (f l : string) : bool :=
match l with
| String a (String _ (String b (String c rest))) =>
    Ascii.eqb a "["%char && Ascii.eqb b "]"%char && Ascii.eqb c " "%char
    && String.eqb rest (f +:+ nl)
| _ => false
end.

(** No two adjacent separators. *)
Definition no_double_separator (s : string) : Prop :=
forall i, filepath.is_sep_at i s = true -> filepath.is_sep_at (S i) s = false.

(** The last byte is a separator. *)
Definition ends_with_separator (s : string) : Prop :=
exists n, len s = S n /\ filepath.is_sep_at n s = true.

(** The invariant of the main loop of [filepath.Clean]: the buffer has no
    doubled separator, it ends with a separator only when it is the root,
    and so does its prefix up to [dotdot]. *)
Definition Clean_invariant (rooted : bool) (out : string) (dotdot : nat) : Prop :=
no_double_separator out
/\ (ends_with_separator out -> rooted = true /\ len out = 1)
/\ dotdot <= len out
/\ (forall n, dotdot = S n -> filepath.is_sep_at n out = true ->
              rooted = true /\ n = 0).

(** Every byte of [s] satisfies [P]. *)
Fixpoint string_forall (P : ascii -> bool) (s : string) : bool :=
match s with
| EmptyString => true
| String c s' => P c && string_forall P s'
end.

(** A path element: not empty and free of separators. *)
Definition is_element (seg : string) : bool :=
negb (String.eqb seg "") && string_forall (fun c => negb (filepath.IsPathSeparator c)) seg.

(** A run of separators. *)
Definition all_separators (s : string) : bool :=
string_forall filepath.IsPathSeparator s.

(** [dir] is empty or ends with a separator. *)
Definition is_dir_prefix (dir : string) : bool :=
String.eqb dir "" || HasSuffix dir "/".

(** An extension as [filepath.Ext] returns it: empty, or a dot followed by
    bytes that are neither dots nor separators. *)
Definition is_extension (ext : string) : bool :=
match ext with
| EmptyString => true
| String c rest =>
    Ascii.eqb c "."%char
    && string_forall (fun c => negb (Ascii.eqb c "."%char)
                               && negb (filepath.IsPathSeparator c)) rest
end.

(** ** Further observations *)

(** The checkout calls of a run: the force flag of each. *)
Definition checkout_calls (tr : list Event) : list (bool * option error) :=
collect (fun ev => match ev with
                | Called (Checkout _ force) err => Some (force, err)
                | _ => None
                end) tr.

(** The commit calls of a run: message, [All] flag and author of each. *)
Definition commit_calls (tr : list Event) : list (string * bool * Signature) :=
collect (fun ev => match ev with
                | Called (Commit _ msg all author) _ => Some (msg, all, author)
                | _ => None
                end) tr.

(** The push calls of a run: the error of each. *)
Definition push_calls (tr : list Event) : list (option error) :=
collect (fun ev => match ev with
                | Called (Push _ _) err => Some err
                | _ => None
                end) tr.

(** Every operation a computation calls, in any run, is one of [allowed]. *)
Definition only_calls {St A : Type} (allowed : Op -> bool) (m : M St A) : Prop :=
forall s, Forall (fun o => allowed o = true) (called (events (m s))).

Definition is_readdir (o : Op) : bool :=
match o with ReadDir _ => true | _ => false end.

(** The operations that inspect without changing anything. *)
Definition is_read_op (o : Op) : bool :=
match o with
| ReadDir _ | NewStorage _ | Open _ _ | GetWorktree _ | WtStatus _ => true
| _ => false
end.

(** Opening a repository, looking up the working directory of the
    process or asking the SSH agent. *)
Definition is_setup_op (o : Op) : bool :=
match o with
| NewStorage _ | Open _ _ | GetWorktree _ | Getwd | NewSSHAgentAuth _ => true
| _ => false
end.

Definition is_add (o : Op) : bool :=
match o with Add _ _ => true | _ => false end.

Definition is_pull (o : Op) : bool :=
match o with Pull _ _ => true | _ => false end.

Definition is_clone (o : Op) : bool :=
match o with PlainClone _ _ _ _ => true | _ => false end.

Definition is_checkout (o : Op) : bool :=
match o with Checkout _ _ => true | _ => false end.

(** A working tree is only ever opened on the shared working directory,
    and the SSH agent only ever asked for the user [git]. *)
Definition uses_shared_workdir (o : Op) : bool :=
match o with
| Open _ worktree => String.eqb worktree dotfilesWorkdir
| NewSSHAgentAuth user => String.eqb user "git"
| _ => true
end.

(** A storage is only ever opened at the path of the repo [repoName]. *)
Definition uses_repo_storage (repoName : string) (o : Op) : bool :=
match o with
| NewStorage fs =>
    String.eqb fs (filepath.Join [dotfilesBasedir; repoName +:+ ".git"])
| _ => true
end.

(** What [main] makes of the run [r] of the command it dispatched to:
    the same calls and final state, the error printed last if there is
    one, and the exit status. *)
Definition main_outcome {St : Type} (r : Run St unit) : Run St nat :=
match res r with
| Ok _ => {| res := Ok 0; final := final r; events := events r |}
| Err e =>
    {| res := Ok 1; final := final r;
       events := events r ++ [Printed (e +:+ nl)] |}
end.

(** The names of the commands [main] dispatches. *)
Definition dispatched : list string :=
["init"; "list"; "status"; "add"; "save"; "pull"].

(** The name [list] prints for a directory entry, and the repo name
    [status] derives from it. *)
Definition list_name (entry : string) : string :=
TrimSuffix entry (filepath.Ext entry).

Definition status_name (entry : string) : string :=
TrimSuffix entry ".git".

(** ** A small simulated world

    Used to run the commands on concrete inputs. *)

Record Sim : Type :=
  { sim_env : list (string * string);
    sim_basedir : result (list string);
    sim_repos : list string;
    sim_wtfiles : list string;
    sim_status : Status;
    sim_remote_up : bool;
    sim_index : list string;
    sim_commits : list string }.

Definition sim_stage (path : string) (s : Sim) : Sim :=
{| sim_env := sim_env s; sim_basedir := sim_basedir s;
   sim_repos := sim_repos s; sim_wtfiles := sim_wtfiles s;
   sim_status := sim_status s; sim_remote_up := sim_remote_up s;
   sim_index := sim_index s ++ [path]; sim_commits := sim_commits s |}.

Definition sim_commit (msg : string) (s : Sim) : Sim :=
{| sim_env := sim_env s; sim_basedir := sim_basedir s;
   sim_repos := sim_repos s; sim_wtfiles := sim_wtfiles s;
   sim_status := sim_status s; sim_remote_up := sim_remote_up s;
   sim_index := []; sim_commits := sim_commits s ++ [msg] |}.

Definition sim_clone (path : string) (s : Sim) : Sim :=
{| sim_env := sim_env s; sim_basedir := sim_basedir s;
   sim_repos := sim_repos s ++ [path]; sim_wtfiles := sim_wtfiles s;
   sim_status := sim_status s; sim_remote_up := sim_remote_up s;
   sim_index := sim_index s; sim_commits := sim_commits s |}.

Definition mem_string (x : string) (l : list string) : bool :=
existsb (String.eqb x) l.

Definition sim_respond (cwd : result string) (s : Sim) (o : Op)
  : result (ret_ty o) * Sim :=
match o return result (ret_ty o) * Sim with
| ReadDir dirname =>
    (if String.eqb dirname dotfilesBasedir then sim_basedir s
     else Err "no such file or directory", s)
| Getwd => (cwd, s)
| NewSSHAgentAuth user => (Ok {| auth_user := user |}, s)
| PlainClone path isBare url auth =>
    if sim_remote_up s
    then (Ok {| repo_Storer := {| storer_fs := path |}; repo_wt := None |},
          sim_clone path s)
    else (Err "connection refused", s)
| NewStorage fs => (Ok {| storer_fs := fs |}, s)
| Open st worktree =>
    (if mem_string (storer_fs st) (sim_repos s)
     then Ok {| repo_Storer := st; repo_wt := Some worktree |}
     else Err "repository not exists", s)
| GetWorktree r =>
    (match repo_wt r with
     | Some _ => Ok {| wt_repo := r |}
     | None => Err "worktree not available in a bare repository"
     end, s)
| Checkout w force => (Ok tt, s)
| WtStatus w => (Ok (sim_status s), s)
| Add w path =>
    if mem_string path (sim_wtfiles s)
    then (Ok "0000", sim_stage path s)
    else (Err "file does not exist", s)
| Commit w msg all author => (Ok "0001", sim_commit msg s)
| Push r auth =>
    (if sim_remote_up s then Ok tt else Err "connection refused", s)
| Pull r auth =>
    (if sim_remote_up s then Ok tt else Err "connection refused", s)
end.

Definition sim_environ (s : Sim) (key : string) : string :=
match find (fun kv => String.eqb (fst kv) key) (sim_env s) with
| Some kv => snd kv
| None => ""
end.

Definition sim_world_in (cwd : result string) : World Sim :=
{| respond := sim_respond cwd;
   environ := sim_environ;
   map_order := fun _ m => map_to_list m |}.

(** The process runs in [/home/u]. *)
Definition sim_world : World Sim := sim_world_in (Ok "/home/u").

(** The same world with an empty environment. *)
Definition sim_world_noenv : World Sim :=
{| respond := sim_respond (Ok "/home/u");
   environ := fun _ _ => "";
   map_order := fun _ m => map_to_list m |}.

(** The same world when [os.Getwd] fails. *)
Definition sim_world_lost : World Sim :=
sim_world_in (Err "getwd: file name too long").

(** A home directory with two repositories and a stray file in the base
    directory; the working tree holds [.bashrc] and [etc/hosts]. *)
Definition sim_home : Sim :=
{| sim_env := [("GIT_AUTHOR_NAME", "U"); ("GIT_AUTHOR_EMAIL", "u@example.org")];
   sim_basedir := Ok ["core.git"; "notes"; "vim.git"];
   sim_repos := ["dotfiles/core.git"; "dotfiles/vim.git"];
   sim_wtfiles := [".bashrc"; "etc/hosts"; "2/x"];
   sim_status :=
     <["a.conf" := {| Staging := " "%char; Worktree := "M"%char; Extra := "" |}]>
     (<["b.conf" := {| Staging := " "%char; Worktree := "?"%char; Extra := "" |}]>
     (<["c.conf" := {| Staging := "D"%char; Worktree := "D"%char; Extra := "" |}]> ∅));
   sim_remote_up := true;
   sim_index := [];
   sim_commits := [] |}.

(** The same home with the remote unreachable. *)
Definition sim_offline : Sim :=
{| sim_env := sim_env sim_home;
   sim_basedir := sim_basedir sim_home;
   sim_repos := sim_repos sim_home;
   sim_wtfiles := sim_wtfiles sim_home;
   sim_status := sim_status sim_home;
   sim_remote_up := false;
   sim_index := [".bashrc"];
   sim_commits := [] |}.

(** The same home with an empty base directory. *)
Definition sim_empty : Sim :=
{| sim_env := sim_env sim_home;
   sim_basedir := Ok [];
   sim_repos := [];
   sim_wtfiles := sim_wtfiles sim_home;
   sim_status := sim_status sim_home;
   sim_remote_up := true;
   sim_index := [];
   sim_commits := [] |}.

(** The same home without a base directory. *)
Definition sim_nobase : Sim :=
{| sim_env := sim_env sim_home;
   sim_basedir := Err "open ./dotfiles: no such file or directory";
   sim_repos := [];
   sim_wtfiles := sim_wtfiles sim_home;
   sim_status := sim_status sim_home;
   sim_remote_up := true;
   sim_index := [];
   sim_commits := [] |}.

(** A base directory where two stray entries come before the only
    repository. *)
Definition sim_stray : Sim :=
{| sim_env := sim_env sim_home;
   sim_basedir := Ok ["notes"; "todo"; "vim.git"];
   sim_repos := ["dotfiles/vim.git"];
   sim_wtfiles := sim_wtfiles sim_home;
   sim_status := sim_status sim_home;
   sim_remote_up := true;
   sim_index := [];
   sim_commits := [] |}.

Definition sim_args : Args :=
{| initRepo := "git@bitbucket.org:andoco/dotfiles-core.git";
   pullRepo := "core"; addRepo := "core"; addFile := "workdir/.bashrc";
   saveRepo := "core"; saveMsg := "update"; undoRepo := "core";
   listVerbose := false; statusRepo := "" |}.


(** * Properties *)

(** ** Go strings *)

Module GoStringFacts.
Import GoString.

Lemma append_nil (t : string) : "" +:+ t = t.
Proof. reflexivity. Qed.

Lemma append_cons (c : ascii) (s t : string) :
  String c s +:+ t = String c (s +:+ t).
Proof. reflexivity. Qed.

Lemma append_empty_r (s : string) : s +:+ "" = s.
Proof. induction s as [|c s IH]; [done | by rewrite append_cons, IH]. Qed.

Lemma append_assoc (a b c : string) : (a +:+ b) +:+ c = a +:+ b +:+ c.
Proof. induction a as [|x a IH]; [done | by rewrite !append_cons, IH]. Qed.

Lemma len_append (a b : string) : len (a +:+ b) = len a + len b.
Proof.
  unfold len. induction a as [|x a IH]; [done |].
  rewrite append_cons. cbn. by rewrite IH.
Qed.

Lemma slice_to_append (p r : string) : slice_to (len p) (p +:+ r) = p.
Proof.
  unfold len. induction p as [|c p IH]; [done |].
  rewrite append_cons. cbn. by rewrite IH.
Qed.

Lemma slice_from_append (p r : string) : slice_from (len p) (p +:+ r) = r.
Proof. unfold len. induction p as [|c p IH]; [done |]. by rewrite append_cons. Qed.

Lemma slice_to_from (i : nat) (s : string) : slice_to i s +:+ slice_from i s = s.
Proof.
  revert s; induction i as [|i IH]; intros [|c s]; cbn; try done.
  by rewrite append_cons, IH.
Qed.

Lemma slice_to_all (i : nat) (s : string) : len s <= i -> slice_to i s = s.
Proof.
  unfold len. revert s; induction i as [|i IH]; intros [|c s]; cbn; intros H;
    try done; try lia.
  rewrite IH; [done | lia].
Qed.

Lemma len_slice_to (i : nat) (s : string) : i <= len s -> len (slice_to i s) = i.
Proof.
  unfold len. revert s; induction i as [|i IH]; intros [|c s]; cbn; intros H;
    try done; try lia.
  rewrite IH; [done | lia].
Qed.

Lemma len_slice_from (i : nat) (s : string) : len (slice_from i s) = len s - i.
Proof.
  unfold len. revert s; induction i as [|i IH]; intros [|c s]; cbn; try done.
Qed.

Lemma slice_from_0 (s : string) : slice_from 0 s = s.
Proof. by destruct s. Qed.

Lemma byte_at_append_l (i : nat) (a b : string) :
  i < len a -> byte_at i (a +:+ b) = byte_at i a.
Proof.
  unfold len, byte_at.
  revert i; induction a as [|c a IH]; intros i H; cbn in *; [lia |].
  rewrite append_cons. destruct i as [|i]; [done |]. cbn. apply IH. lia.
Qed.

Lemma byte_at_append_r (i : nat) (a b : string) :
  byte_at (len a + i) (a +:+ b) = byte_at i b.
Proof.
  unfold len, byte_at. induction a as [|c a IH]; [done |].
  by rewrite append_cons.
Qed.

Lemma byte_at_ge (i : nat) (s : string) : len s <= i -> byte_at i s = None.
Proof.
  unfold len, byte_at.
  revert i; induction s as [|c s IH]; intros i H; cbn in *.
  - by destruct i.
  - destruct i as [|i]; [lia |]. apply IH. lia.
Qed.

Lemma byte_at_lt (i : nat) (s : string) : i < len s -> is_Some (byte_at i s).
Proof.
  unfold len, byte_at.
  revert i; induction s as [|c s IH]; intros i H; cbn in *; [lia |].
  destruct i as [|i]; [by eexists |]. apply IH. lia.
Qed.

Lemma byte_at_slice_to (i j : nat) (s : string) :
  i < j -> byte_at i (slice_to j s) = byte_at i s.
Proof.
  unfold byte_at.
  revert i s; induction j as [|j IH]; intros i [|c s] H; cbn; try done; try lia.
  destruct i as [|i]; [done |]. apply IH. lia.
Qed.

Lemma byte_at_slice_from (i j : nat) (s : string) :
  byte_at i (slice_from j s) = byte_at (j + i) s.
Proof.
  unfold byte_at.
  revert s; induction j as [|j IH]; intros [|c s]; cbn; try done.
Qed.

Lemma HasPrefix_append (p r : string) : HasPrefix (p +:+ r) p = true.
Proof.
  unfold HasPrefix. rewrite slice_to_append, String.eqb_refl, len_append.
  rewrite andb_true_r. apply Nat.leb_le. lia.
Qed.

Lemma HasPrefix_inv (s p : string) :
  HasPrefix s p = true -> s = p +:+ slice_from (len p) s.
Proof.
  unfold HasPrefix. intros [_ H]%andb_prop. apply String.eqb_eq in H.
  rewrite <- H at 1. by rewrite slice_to_from.
Qed.

Lemma TrimPrefix_append (p r : string) : TrimPrefix (p +:+ r) p = r.
Proof. unfold TrimPrefix. by rewrite HasPrefix_append, slice_from_append. Qed.


Lemma HasSuffix_append (r x : string) : HasSuffix (r +:+ x) x = true.
Proof.
  unfold HasSuffix. rewrite len_append.
  replace (len r + len x - len x) with (len r) by lia.
  rewrite slice_from_append, String.eqb_refl, andb_true_r.
  apply Nat.leb_le. lia.
Qed.

Lemma TrimSuffix_append (r x : string) : TrimSuffix (r +:+ x) x = r.
Proof.
  unfold TrimSuffix. rewrite HasSuffix_append, len_append.
  replace (len r + len x - len x) with (len r) by lia.
  apply slice_to_append.
Qed.

Lemma TrimSuffix_no (s x : string) : HasSuffix s x = false -> TrimSuffix s x = s.
Proof. unfold TrimSuffix. by intros ->. Qed.

Lemma HasSuffix_inv (s x : string) :
  HasSuffix s x = true -> s = slice_to (len s - len x) s +:+ x.
Proof.
  unfold HasSuffix. intros [_ H]%andb_prop. apply String.eqb_eq in H.
  rewrite <- H at 2. by rewrite slice_to_from.
Qed.

Lemma TrimSuffix_rejoin (s x : string) :
  HasSuffix s x = true -> TrimSuffix s x +:+ x = s.
Proof.
  intros H. unfold TrimSuffix. rewrite H. symmetry. by apply HasSuffix_inv.
Qed.

Lemma HasSuffix_slice_from (i : nat) (s : string) :
  i <= len s -> HasSuffix s (slice_from i s) = true.
Proof.
  intros H. rewrite <- (slice_to_from i s) at 1. apply HasSuffix_append.
Qed.

Lemma HasSuffix_empty (s : string) : HasSuffix s "" = true.
Proof.
  pose proof (HasSuffix_append s "") as H. by rewrite append_empty_r in H.
Qed.

Lemma append_inj_l (a b t : string) : a +:+ t = b +:+ t -> a = b.
Proof.
  revert b; induction a as [|x a IH]; intros [|y b] H; try done.
  - apply (f_equal len) in H. rewrite append_nil, append_cons in H.
    unfold len in H; cbn in H. fold (len (b +:+ t)) in H.
    rewrite len_append in H. unfold len in H. lia.
  - apply (f_equal len) in H. rewrite append_nil, append_cons in H.
    unfold len in H; cbn in H. fold (len (a +:+ t)) in H.
    rewrite len_append in H. unfold len in H. lia.
  - rewrite !append_cons in H. injection H as -> H. f_equal. by apply IH.
Qed.

End GoStringFacts.

(** ** [path/filepath] *)

Module FilepathFacts.
Import GoString GoStringFacts filepath.

Lemma string_forall_byte_at (P : ascii -> bool) (s : string) (i : nat) (c : ascii) :
  string_forall P s = true -> byte_at i s = Some c -> P c = true.
Proof.
  unfold byte_at. revert i; induction s as [|x s IH]; intros i; cbn.
  - by destruct i.
  - intros [Hx Hs]%andb_prop. destruct i as [|i]; cbn.
    + by intros [= <-].
    + by apply IH.
Qed.

Lemma string_forall_from_byte_at (P : ascii -> bool) (s : string) :
  (forall i c, byte_at i s = Some c -> P c = true) -> string_forall P s = true.
Proof.
  unfold byte_at. induction s as [|x s IH]; intros H; cbn; [done |].
  apply andb_true_intro; split.
  - by apply (H 0).
  - apply IH. intros i c Hi. by apply (H (S i)).
Qed.

Lemma is_sep_at_append_l (i : nat) (a b : string) :
  i < len a -> is_sep_at i (a +:+ b) = is_sep_at i a.
Proof. intros H. unfold is_sep_at. by rewrite byte_at_append_l. Qed.

Lemma is_sep_at_append_r (i : nat) (a b : string) :
  is_sep_at (len a + i) (a +:+ b) = is_sep_at i b.
Proof. unfold is_sep_at. by rewrite byte_at_append_r. Qed.

Lemma is_sep_at_all_separators (i : nat) (s : string) :
  all_separators s = true -> i < len s -> is_sep_at i s = true.
Proof.
  intros Hs Hi. unfold is_sep_at.
  destruct (byte_at_lt i s Hi) as [c Hc]. rewrite Hc.
  by apply (string_forall_byte_at _ s i).
Qed.

Lemma is_sep_at_no_separator (i : nat) (s : string) :
  string_forall (fun c => negb (IsPathSeparator c)) s = true ->
  is_sep_at i s = false.
Proof.
  intros Hs. unfold is_sep_at. destruct (byte_at i s) as [c|] eqn:Hc; [|done].
  apply (string_forall_byte_at _ s i c Hs) in Hc. by apply negb_true_iff.
Qed.

(** *** [Ext] *)

Lemma Ext_scan_cases (path : string) (k : nat) :
  k <= len path ->
  Ext_scan path k = ""
  \/ exists i, i < k /\ Ext_scan path k = slice_from i path
               /\ is_dot_at i path = true
               /\ forall j, i < j < k ->
                    is_dot_at j path = false /\ is_sep_at j path = false.
Proof.
  induction k as [|k IH]; intros Hk; cbn; [by left |].
  destruct (is_sep_at k path) eqn:Hsep; [by left |].
  destruct (is_dot_at k path) eqn:Hdot.
  - right. exists k. repeat split; try done; lia.
  - destruct IH as [IH | (i & Hi & Hs & Hd & Hbetween)]; [lia | by left |].
    right. exists i. repeat split; try done; try lia.
    all: destruct (decide (j = k)) as [-> | Hne]; [done |];
      apply Hbetween; lia.
Qed.

Lemma Ext_suffix (path : string) : HasSuffix path (Ext path) = true.
Proof.
  unfold Ext.
  destruct (Ext_scan_cases path (len path)) as [-> | (i & Hi & -> & _)]; [done | |].
  - apply HasSuffix_empty.
  - apply HasSuffix_slice_from. lia.
Qed.

Lemma TrimSuffix_Ext (path : string) :
  TrimSuffix path (Ext path) +:+ Ext path = path.
Proof. apply TrimSuffix_rejoin, Ext_suffix. Qed.

Lemma slice_from_cons_byte_at (i : nat) (s : string) (c : ascii) :
  byte_at i s = Some c -> slice_from i s = String c (slice_from (S i) s).
Proof.
  unfold byte_at. revert s; induction i as [|i IH]; intros [|x s]; cbn; try done.
  - by intros [= ->].
  - apply IH.
Qed.

Lemma Ext_is_extension (path : string) : is_extension (Ext path) = true.
Proof.
  unfold Ext.
  destruct (Ext_scan_cases path (len path))
    as [-> | (i & Hi & -> & Hdot & Hbetween)]; [done | done |].
  unfold is_dot_at in Hdot.
  destruct (byte_at i path) as [c|] eqn:Hc; [|done].
  rewrite (slice_from_cons_byte_at i path c Hc).
  unfold is_extension. rewrite Hdot, andb_true_l.
  apply string_forall_from_byte_at. intros j d Hj.
  rewrite byte_at_slice_from in Hj.
  assert (S i + j < len path) as Hlt.
  { destruct (decide (S i + j < len path)); [done |].
    rewrite byte_at_ge in Hj; [done | lia]. }
  destruct (Hbetween (S i + j)) as [Hd Hs]; [lia |].
  unfold is_dot_at, is_sep_at in Hd, Hs. rewrite Hj in Hd, Hs.
  by rewrite Hd, Hs.
Qed.

(** *** [Base] *)

Lemma strip_trailing_seps_run (a sl : string) (k : nat) :
  all_separators sl = true -> k <= len sl ->
  strip_trailing_seps (a +:+ sl) (len a + k) = strip_trailing_seps (a +:+ sl) (len a).
Proof.
  intros Hsl. induction k as [|k IH]; intros Hk.
  - by rewrite Nat.add_0_r.
  - rewrite Nat.add_succ_r. cbn.
    rewrite is_sep_at_append_r, is_sep_at_all_separators; [|done|lia].
    apply IH. lia.
Qed.

Lemma strip_trailing_seps_stop (a b : string) (i : nat) :
  len a = S i -> is_sep_at i a = false ->
  strip_trailing_seps (a +:+ b) (len a) = len a.
Proof.
  intros Hlen Hsep. rewrite Hlen. cbn.
  rewrite is_sep_at_append_l, Hsep; [done | lia].
Qed.

Lemma last_elem_start_element (pre seg : string) (j : nat) :
  is_dir_prefix pre = true ->
  string_forall (fun c => negb (IsPathSeparator c)) seg = true ->
  j <= len seg ->
  last_elem_start (pre +:+ seg) (len pre + j) = len pre.
Proof.
  intros Hpre Hseg. induction j as [|j IH]; intros Hj.
  - rewrite Nat.add_0_r. unfold is_dir_prefix in Hpre.
    apply orb_prop in Hpre as [Hpre | Hpre].
    + apply String.eqb_eq in Hpre. by subst pre.
    + apply HasSuffix_inv in Hpre.
      remember (slice_to (len pre - len "/") pre) as p eqn:Hp.
      clear Hp. subst pre. rewrite len_append.
      change (len "/") with 1. rewrite Nat.add_1_r. cbn [last_elem_start].
      rewrite append_assoc.
      replace (is_sep_at (len p) (p +:+ "/" +:+ seg))
        with (is_sep_at (len p + 0) (p +:+ "/" +:+ seg)) by (f_equal; lia).
      by rewrite is_sep_at_append_r.
  - rewrite Nat.add_succ_r. cbn.
    rewrite is_sep_at_append_r, is_sep_at_no_separator by done.
    apply IH. lia.
Qed.

Lemma is_element_inv (seg : string) :
  is_element seg = true ->
  seg <> "" /\ string_forall (fun c => negb (IsPathSeparator c)) seg = true.
Proof.
  unfold is_element. intros [H1 H2]%andb_prop. split; [|done].
  apply negb_true_iff in H1. by apply String.eqb_neq.
Qed.

(** The last element of a path is what [Base] returns: trailing
    separators are dropped, nothing else is. *)
Lemma Base_element (pre seg slashes : string) :
  is_dir_prefix pre = true ->
  is_element seg = true ->
  all_separators slashes = true ->
  Base (pre +:+ seg +:+ slashes) = seg.
Proof.
  intros Hpre [Hne Hseg]%is_element_inv Hsl. unfold Base.
  assert (len seg <> 0) as Hlen by (unfold len; by destruct seg).
  destruct (String.eqb_spec (pre +:+ seg +:+ slashes) "") as [Heq | _].
  { apply (f_equal len) in Heq. rewrite !len_append in Heq. cbn in Heq. lia. }
  rewrite <- append_assoc.
  assert (strip_trailing_seps ((pre +:+ seg) +:+ slashes)
            (len ((pre +:+ seg) +:+ slashes)) = len (pre +:+ seg)) as ->.
  { rewrite (len_append (pre +:+ seg)).
    rewrite strip_trailing_seps_run by (done || lia).
    apply (strip_trailing_seps_stop _ _ (len pre + (len seg - 1))).
    - rewrite len_append. lia.
    - rewrite is_sep_at_append_r. by apply is_sep_at_no_separator. }
  rewrite slice_to_append.
  rewrite (len_append pre seg), last_elem_start_element by (done || lia).
  rewrite slice_from_append.
  by destruct (String.eqb_spec seg "").
Qed.



Lemma is_dir_prefix_cons (c : ascii) (pre : string) :
  pre <> "" -> is_dir_prefix pre = true -> is_dir_prefix (String c pre) = true.
Proof.
  unfold is_dir_prefix. intros Hne [H | H]%orb_prop.
  - by apply String.eqb_eq in H.
  - apply HasSuffix_inv in H. rewrite H, <- append_cons.
    rewrite HasSuffix_append. apply orb_true_r.
Qed.


(** *** [Clean] *)

Lemma is_sep_at_ge (i : nat) (s : string) : len s <= i -> is_sep_at i s = false.
Proof. intros H. unfold is_sep_at. by rewrite byte_at_ge. Qed.

Lemma is_sep_at_append (i : nat) (a b : string) :
  is_sep_at i (a +:+ b)
  = if i <? len a then is_sep_at i a else is_sep_at (i - len a) b.
Proof.
  destruct (Nat.ltb_spec i (len a)) as [H | H].
  - by apply is_sep_at_append_l.
  - replace i with (len a + (i - len a)) at 1 by lia.
    apply is_sep_at_append_r.
Qed.

Lemma len_slice_to_le (j : nat) (s : string) : len (slice_to j s) <= j.
Proof.
  unfold len. revert s; induction j as [|j IH]; intros [|c s]; cbn; try lia.
  specialize (IH s). lia.
Qed.

Lemma is_sep_at_slice_to (i j : nat) (s : string) :
  is_sep_at i (slice_to j s) = if i <? j then is_sep_at i s else false.
Proof.
  destruct (Nat.ltb_spec i j) as [H | H].
  - unfold is_sep_at. by rewrite byte_at_slice_to.
  - apply is_sep_at_ge. pose proof (len_slice_to_le j s). lia.
Qed.

Lemma no_double_separator_append (a b : string) :
  no_double_separator a -> no_double_separator b ->
  (ends_with_separator a -> is_sep_at 0 b = false) ->
  no_double_separator (a +:+ b).
Proof.
  intros Ha Hb Hab i. rewrite !is_sep_at_append.
  destruct (Nat.ltb_spec i (len a)) as [Hi | Hi];
    destruct (Nat.ltb_spec (S i) (len a)) as [Hi' | Hi']; try lia.
  - apply Ha.
  - intros Hsep. replace (S i - len a) with 0 by lia.
    apply Hab. exists i. split; [lia | done].
  - replace (S i - len a) with (S (i - len a)) by lia.
    apply Hb.
Qed.

Lemma no_separator_facts (t : string) :
  string_forall (fun c => negb (IsPathSeparator c)) t = true ->
  no_double_separator t /\ ~ ends_with_separator t /\ is_sep_at 0 t = false.
Proof.
  intros Ht. split; [| split].
  - intros i. by rewrite is_sep_at_no_separator.
  - intros (n & _ & Hn). by rewrite is_sep_at_no_separator in Hn.
  - by apply is_sep_at_no_separator.
Qed.

Lemma not_ends_with_separator_append (a t : string) :
  t <> "" -> ~ ends_with_separator t -> ~ ends_with_separator (a +:+ t).
Proof.
  intros Hne Ht (n & Hlen & Hsep). apply Ht.
  rewrite len_append in Hlen.
  assert (len t <> 0) as Hlt by (unfold len; by destruct t).
  exists (n - len a). split; [lia |].
  rewrite is_sep_at_append in Hsep.
  destruct (Nat.ltb_spec n (len a)); [lia | done].
Qed.

(** Appending an element, after a separator if [slash] says so. *)
Lemma Clean_invariant_push (rooted slash : bool) (out t : string) (dotdot : nat) :
  Clean_invariant rooted out dotdot ->
  (slash = true -> ~ ends_with_separator out) ->
  t <> "" ->
  string_forall (fun c => negb (IsPathSeparator c)) t = true ->
  let out' := (if slash then out +:+ "/" else out) +:+ t in
  Clean_invariant rooted out' dotdot /\ ~ ends_with_separator out'.
Proof.
  intros (Hnds & Htail & Hdd & Hpre) Hslash Hne Ht out'.
  destruct (no_separator_facts t Ht) as (Hnds_t & Hend_t & Hstart_t).
  assert (no_double_separator (if slash then out +:+ "/" else out)) as Hnds1.
  { destruct slash; [|done].
    apply no_double_separator_append; [done | |].
    - intros [|i]; [done |]. intros H. by rewrite is_sep_at_ge in H.
    - intros Hend. by destruct Hslash. }
  assert (~ ends_with_separator out') as Hend.
  { by apply not_ends_with_separator_append. }
  assert (forall i, i < len out -> is_sep_at i out' = is_sep_at i out) as Hsame.
  { intros i Hi. subst out'. destruct slash.
    - rewrite append_assoc. by apply is_sep_at_append_l.
    - by apply is_sep_at_append_l. }
  assert (len out <= len out') as Hlen.
  { subst out'. destruct slash; rewrite !len_append; lia. }
  split; [| done]. split; [| split; [| split]].
  - apply no_double_separator_append; try done.
  - intros H. by destruct Hend.
  - lia.
  - intros n -> Hn. apply (Hpre n); [done |]. rewrite <- Hsame; [done | lia].
Qed.

Lemma Clean_backtrack_spec (buf : string) (dotdot w0 : nat) :
  dotdot <= w0 ->
  dotdot <= Clean_backtrack buf dotdot w0 <= w0
  /\ (Clean_backtrack buf dotdot w0 = dotdot
      \/ is_sep_at (Clean_backtrack buf dotdot w0) buf = true).
Proof.
  induction w0 as [|w IH]; intros Hle; cbn [Clean_backtrack].
  - split; [lia | left; lia].
  - destruct (Nat.ltb_spec dotdot (S w)) as [Hlt | Hge]; cbn [andb].
    + destruct (is_sep_at (S w) buf) eqn:Hsep; cbn [negb].
      * split; [lia | by right].
      * destruct IH as [Hrange Hstop]; [lia |]. split; [lia | done].
    + split; [lia | left; lia].
Qed.

(** Removing the last element on a [..]. *)
Lemma Clean_invariant_backtrack (rooted : bool) (out : string) (dotdot : nat) :
  Clean_invariant rooted out dotdot ->
  dotdot < len out ->
  Clean_invariant rooted
    (slice_to (Clean_backtrack out dotdot (len out - 1)) out) dotdot.
Proof.
  intros (Hnds & Htail & Hdd & Hpre) Hlt.
  destruct (Clean_backtrack_spec out dotdot (len out - 1)) as [Hrange Hstop]; [lia |].
  set (w := Clean_backtrack out dotdot (len out - 1)) in *.
  assert (len (slice_to w out) = w) as Hlen by (apply len_slice_to; lia).
  split; [| split; [| split]].
  - intros i. rewrite !is_sep_at_slice_to.
    destruct (Nat.ltb_spec i w); [| done].
    destruct (Nat.ltb_spec (S i) w); [apply Hnds | done].
  - intros (n & Hn & Hsep). rewrite Hlen in Hn.
    rewrite is_sep_at_slice_to in Hsep.
    destruct (Nat.ltb_spec n w); [| done].
    destruct Hstop as [Hw | Hw].
    + destruct (Hpre n) as [-> ->]; [lia | done |]. split; [done | lia].
    + apply Hnds in Hsep. rewrite <- Hn in Hsep. congruence.
  - lia.
  - intros n -> Hn. rewrite is_sep_at_slice_to in Hn.
    destruct (Nat.ltb_spec n w); [by apply Hpre | done].
Qed.

(** The element copy appends bytes that are not separators. *)
Lemma Clean_copy_spec (fuel : nat) (path : string) (r : nat) (out : string) :
  exists t,
    (Clean_copy fuel path r out).2 = out +:+ t
    /\ string_forall (fun c => negb (IsPathSeparator c)) t = true.
Proof.
  revert r out; induction fuel as [|fuel IH]; intros r out; cbn [Clean_copy].
  - exists "". by rewrite append_empty_r.
  - destruct (byte_at r path) as [c|].
    + destruct (IsPathSeparator c) eqn:Hc.
      * exists "". by rewrite append_empty_r.
      * destruct (IH (S r) (out +:+ String c "")) as (t & -> & Ht).
        exists (String c t). split.
        -- by rewrite append_assoc.
        -- cbn. by rewrite Hc, Ht.
    + exists "". by rewrite append_empty_r.
Qed.

Lemma Clean_loop_no_double_separator (fuel : nat) (path : string)
    (rooted : bool) (r : nat) (out : string) (dotdot : nat) :
  Clean_invariant rooted out dotdot ->
  no_double_separator (Clean_loop fuel path rooted r out dotdot).
Proof.
  revert r out dotdot; induction fuel as [|fuel IH]; intros r out dotdot Hinv;
    cbn [Clean_loop]; [apply Hinv |].
  destruct (Nat.ltb_spec r (len path)) as [Hr | Hr]; cbn [negb]; [| apply Hinv].
  destruct (is_sep_at r path) eqn:Hsep; [by apply IH |].
  destruct (is_dot_at r path && ((r + 1 =? len path) || is_sep_at (r + 1) path));
    [by apply IH |].
  destruct (is_dot_at r path && is_dot_at (r + 1) path
            && ((r + 2 =? len path) || is_sep_at (r + 2) path)).
  - destruct (Nat.ltb_spec dotdot (len out)) as [Hdd | Hdd].
    + by apply IH, Clean_invariant_backtrack.
    + destruct rooted; cbn [negb]; [by apply IH |].
      apply IH.
      destruct (Clean_invariant_push false (0 <? len out) out ".." dotdot Hinv)
        as [(Hnds & Htail & _ & _) Hend]; try done.
      { intros _ Hends. by destruct (proj1 (proj2 Hinv) Hends). }
      cbn zeta in *. split; [done |]. split; [done |]. split; [done |].
      intros n Hn Hsepn. destruct Hend. by exists n.
  - destruct (byte_at_lt r path Hr) as [c Hc].
    assert (IsPathSeparator c = false) as Hnsep.
    { unfold is_sep_at in Hsep. by rewrite Hc in Hsep. }
    destruct (len path) as [|n] eqn:Hn; [lia |]. rewrite <- Hn.
    destruct (Clean_copy (len path) path r _) as [r' out'] eqn:Hcopy.
    apply IH.
    rewrite Hn in Hcopy. cbn [Clean_copy] in Hcopy. rewrite Hc, Hnsep in Hcopy.
    match type of Hcopy with
    | Clean_copy n path ?r1 (?o +:+ _) = _ =>
        destruct (Clean_copy_spec n path r1 (o +:+ String c "")) as (t & Ht & Hall)
    end.
    rewrite Hcopy in Ht. cbn [snd] in Ht. rewrite append_assoc in Ht.
    change (String c "" +:+ t) with (String c t) in Ht. subst out'.
    apply (Clean_invariant_push rooted _ out (String c t) dotdot Hinv); try done.
    + intros Hcond Hends. destruct (proj1 (proj2 Hinv) Hends) as [-> Hl].
      rewrite Hl in Hcond. done.
    + cbn. by rewrite Hnsep, Hall.
Qed.

Lemma Clean_no_double_separator (path : string) :
  no_double_separator (Clean path).
Proof.
  unfold Clean. destruct (String.eqb path ""); [by intros [|[|i]] |].
  assert (no_double_separator
            (if is_sep_at 0 path
             then Clean_loop (len path) path (is_sep_at 0 path) 1 "/" 1
             else Clean_loop (len path) path (is_sep_at 0 path) 0 "" 0)) as H.
  { destruct (is_sep_at 0 path); apply Clean_loop_no_double_separator.
    - split; [by intros [|i] |]. split; [done |]. split; [done |].
      intros n [= <-] _. done.
    - split; [by intros i |]. split; [by intros (n & ? & ?) |].
      split; [done | done]. }
  destruct (len _ =? 0); [by intros [|[|i]] | done].
Qed.

Lemma Join_no_double_separator (elem : list string) :
  no_double_separator (filepath.Join elem).
Proof.
  induction elem as [|e elem IH]; cbn [filepath.Join]; [by intros i |].
  destruct (String.eqb e ""); [done | apply Clean_no_double_separator].
Qed.

(** *** The fuel of the [Clean] loops is enough

    Both loops advance their read index at every turn, so the length of
    the path bounds their number of turns: with that much fuel they end
    because the input is consumed, and more fuel changes nothing. *)

Lemma Clean_copy_fuel (fuel : nat) (path : string) (r : nat) (out : string) :
  len path - r <= fuel ->
  Clean_copy (S fuel) path r out = Clean_copy fuel path r out.
Proof.
  revert r out; induction fuel as [|fuel IH]; intros r out Hfuel.
  - cbn [Clean_copy]. rewrite byte_at_ge; [done | lia].
  - change (Clean_copy (S (S fuel)) path r out)
      with (match byte_at r path with
            | Some c =>
                if IsPathSeparator c then (r, out)
                else Clean_copy (S fuel) path (S r)
                       (out +:+ String c "")
            | None => (r, out)
            end).
    cbn [Clean_copy]. destruct (byte_at r path) as [c|]; [| done].
    destruct (IsPathSeparator c); [done |].
    rewrite <- IH; [done | lia].
Qed.

Lemma Clean_copy_advance (fuel : nat) (path : string) (r : nat) (out : string) :
  r <= (Clean_copy fuel path r out).1.
Proof.
  revert r out; induction fuel as [|fuel IH]; intros r out; cbn [Clean_copy];
    [done |].
  destruct (byte_at r path) as [c|]; [| done].
  destruct (IsPathSeparator c); [done |].
  specialize (IH (S r) (out +:+ String c "")). lia.
Qed.

Lemma Clean_copy_advance_element (fuel : nat) (path : string) (r : nat)
    (out : string) :
  r < len path -> is_sep_at r path = false ->
  r < (Clean_copy (S fuel) path r out).1.
Proof.
  intros Hr Hsep. cbn [Clean_copy].
  destruct (byte_at_lt r path Hr) as [c Hc]. rewrite Hc.
  unfold is_sep_at in Hsep. rewrite Hc in Hsep. rewrite Hsep.
  pose proof (Clean_copy_advance fuel path (S r) (out +:+ String c "")).
  lia.
Qed.

(** One turn of the main loop. *)
Lemma Clean_loop_turn (fuel : nat) (path : string) (rooted : bool)
    (r : nat) (out : string) (dotdot : nat) :
  Clean_loop (S fuel) path rooted r out dotdot =
  if negb (r <? len path) then out
  else if is_sep_at r path then
    Clean_loop fuel path rooted (r + 1) out dotdot
  else if is_dot_at r path && ((r + 1 =? len path) || is_sep_at (r + 1) path) then
    Clean_loop fuel path rooted (r + 1) out dotdot
  else if is_dot_at r path && is_dot_at (r + 1) path
          && ((r + 2 =? len path) || is_sep_at (r + 2) path) then
    if dotdot <? len out then
      Clean_loop fuel path rooted (r + 2)
        (slice_to (Clean_backtrack out dotdot (len out - 1)) out) dotdot
    else if negb rooted then
      Clean_loop fuel path rooted (r + 2)
        ((if 0 <? len out then out +:+ "/" else out) +:+ "..")
        (len ((if 0 <? len out then out +:+ "/" else out) +:+ ".."))
    else
      Clean_loop fuel path rooted (r + 2) out dotdot
  else
    Clean_loop fuel path rooted
      (Clean_copy (len path) path r
         (if (rooted && negb (len out =? 1)) || (negb rooted && negb (len out =? 0))
          then out +:+ "/" else out)).1
      (Clean_copy (len path) path r
         (if (rooted && negb (len out =? 1)) || (negb rooted && negb (len out =? 0))
          then out +:+ "/" else out)).2
      dotdot.
Proof.
  cbn [Clean_loop].
  by destruct (Clean_copy (len path) path r _).
Qed.

Lemma Clean_loop_fuel (fuel : nat) (path : string) (rooted : bool)
    (r : nat) (out : string) (dotdot : nat) :
  len path - r <= fuel ->
  Clean_loop (S fuel) path rooted r out dotdot
  = Clean_loop fuel path rooted r out dotdot.
Proof.
  revert r out dotdot; induction fuel as [|fuel IH]; intros r out dotdot Hfuel.
  - cbn [Clean_loop]. destruct (Nat.ltb_spec r (len path)); [lia | done].
  - rewrite (Clean_loop_turn fuel path rooted r out dotdot).
    rewrite (Clean_loop_turn (S fuel) path rooted r out dotdot).
    destruct (Nat.ltb_spec r (len path)) as [Hr | Hr]; cbn [negb]; [| done].
    destruct (is_sep_at r path) eqn:Hsep; [apply IH; lia |].
    destruct (is_dot_at r path && ((r + 1 =? len path) || is_sep_at (r + 1) path));
      [apply IH; lia |].
    destruct (is_dot_at r path && is_dot_at (r + 1) path
              && ((r + 2 =? len path) || is_sep_at (r + 2) path)).
    { destruct (dotdot <? len out); [apply IH; lia |].
      destruct (negb rooted); apply IH; lia. }
    apply IH.
    destruct (len path) as [|n] eqn:Hn; [lia |].
    match goal with
    | |- context [Clean_copy _ path r ?o] =>
        pose proof (Clean_copy_advance_element n path r o) as Hadv
    end.
    rewrite Hn in Hadv. specialize (Hadv ltac:(lia) Hsep). lia.
Qed.

(** [Clean] is the limit of its loop: any fuel beyond the length of the
    path gives the same cleaned path. *)
Lemma Clean_loop_enough (extra : nat) (path : string) (rooted : bool)
    (r : nat) (out : string) (dotdot : nat) :
  Clean_loop (len path + extra) path rooted r out dotdot
  = Clean_loop (len path) path rooted r out dotdot.
Proof.
  induction extra as [|extra IH]; [by rewrite Nat.add_0_r |].
  rewrite Nat.add_succ_r, Clean_loop_fuel; [done | lia].
Qed.

Lemma HasPrefix_separator (s : string) : HasPrefix s "/" = is_sep_at 0 s.
Proof.
  destruct s as [|c s]; [done |].
  unfold HasPrefix, is_sep_at, IsPathSeparator, Separator. cbn.
  destruct (Ascii.eqb c "/"); [| done]. by destruct s.
Qed.

(** What follows a separator in a cleaned path is not a separator. *)
Lemma no_leading_separator_after (dir rest : string) :
  no_double_separator (dir +:+ "/" +:+ rest) -> HasPrefix rest "/" = false.
Proof.
  intros H. rewrite HasPrefix_separator.
  specialize (H (len dir + 0)). rewrite is_sep_at_append_r in H.
  specialize (H eq_refl).
  replace (S (len dir + 0)) with (len dir + 1) in H by lia.
  rewrite is_sep_at_append_r in H.
  change 1 with (len "/" + 0) in H.
  by rewrite (is_sep_at_append_r 0 "/" rest) in H.
Qed.

End FilepathFacts.

(** ** Running computations *)

Section RunFacts.
Context {St : Type} (W : World St).

Lemma collect_app {A : Type} (f : Event -> option A) (tr1 tr2 : list Event) :
  collect f (tr1 ++ tr2) = collect f tr1 ++ collect f tr2.
Proof.
  induction tr1 as [|ev tr1 IH]; [done |].
  cbn. destruct (f ev); cbn; by rewrite IH.
Qed.

Lemma bind_ok {A B : Type} (m : M St A) (k : A -> M St B) (s : St) (a : A) :
  res (m s) = Ok a ->
  bind m k s =
  {| res := res (k a (final (m s)));
     final := final (k a (final (m s)));
     events := events (m s) ++ events (k a (final (m s))) |}.
Proof. intros H. unfold bind. by rewrite H. Qed.

Lemma bind_err {A B : Type} (m : M St A) (k : A -> M St B) (s : St) (e : error) :
  res (m s) = Err e ->
  bind m k s = {| res := Err e; final := final (m s); events := events (m s) |}.
Proof. intros H. unfold bind. by rewrite H. Qed.

Lemma bind_ret {A B : Type} (a : A) (k : A -> M St B) (s : St) :
  res (bind (ret a) k s) = res (k a s)
  /\ final (bind (ret a) k s) = final (k a s)
  /\ events (bind (ret a) k s) = events (k a s).
Proof. done. Qed.

Lemma run_eta {A : Type} (r : Run St A) :
  {| res := res r; final := final r; events := events r |} = r.
Proof. by destruct r. Qed.

Lemma bind_assoc {A B C : Type} (m : M St A) (k1 : A -> M St B)
    (k2 : B -> M St C) (s : St) :
  bind (bind m k1) k2 s = bind m (fun a => bind (k1 a) k2) s.
Proof.
  unfold bind. destruct (res (m s)) as [a|e]; cbn [res final events]; [|done].
  destruct (res (k1 a (final (m s)))) as [b|e]; cbn [res final events]; [|done].
  by rewrite app_assoc.
Qed.

Lemma bind_ret_l {A B : Type} (a : A) (k : A -> M St B) (s : St) :
  bind (ret a) k s = k a s.
Proof. unfold bind, ret. cbn. apply run_eta. Qed.

Lemma bind_fail {A B : Type} (e : error) (k : A -> M St B) (s : St) :
  bind (fail e) k s = {| res := Err e; final := s; events := [] |}.
Proof. done. Qed.

Lemma bind_Getenv {B : Type} (key : string) (k : string -> M St B) (s : St) :
  bind (Getenv W key) k s = k (environ W s key) s.
Proof. unfold bind, Getenv. cbn. apply run_eta. Qed.

Lemma bind_range_map {B : Type} (m : Status)
    (k : list (string * FileStatus) -> M St B) (s : St) :
  bind (range_map W m) k s = k (map_order W s m) s.
Proof. unfold bind, range_map. cbn. apply run_eta. Qed.

Lemma bind_print {B : Type} (text : string) (k : unit -> M St B) (s : St) :
  bind (print text) k s =
  {| res := res (k tt s); final := final (k tt s);
     events := Printed text :: events (k tt s) |}.
Proof. done. Qed.

Lemma bind_perform {B : Type} (o : Op) (k : result (ret_ty o) -> M St B) (s : St) :
  bind (perform W o) k s =
  {| res := res (k (respond W s o).1 (respond W s o).2);
     final := final (k (respond W s o).1 (respond W s o).2);
     events := Called o (result_err (respond W s o).1)
               :: events (k (respond W s o).1 (respond W s o).2) |}.
Proof. unfold bind, perform. by destruct (respond W s o) as [r s']. Qed.

Lemma call_run (o : Op) (s : St) :
  call W o s =
  {| res := (respond W s o).1; final := (respond W s o).2;
     events := [Called o (result_err (respond W s o).1)] |}.
Proof.
  unfold call, perform, bind. destruct (respond W s o) as [[a|e] s']; done.
Qed.

Lemma bind_call_ok {B : Type} (o : Op) (k : ret_ty o -> M St B) (s s' : St)
    (a : ret_ty o) :
  respond W s o = (Ok a, s') ->
  bind (call W o) k s =
  {| res := res (k a s'); final := final (k a s');
     events := Called o None :: events (k a s') |}.
Proof.
  intros H. rewrite (bind_ok _ _ _ a); rewrite call_run, H; done.
Qed.

Lemma bind_call_err {B : Type} (o : Op) (k : ret_ty o -> M St B) (s s' : St)
    (e : error) :
  respond W s o = (Err e, s') ->
  bind (call W o) k s =
  {| res := Err e; final := s'; events := [Called o (Some e)] |}.
Proof.
  intros H. rewrite (bind_err _ _ _ e); rewrite call_run, H; done.
Qed.

(** *** Fail-fast runs compose *)

Lemma fail_fast_nil {A : Type} (u : Op -> bool) (r : result A) :
  fail_fast u [] r.
Proof. intros pre o e post H. by destruct pre. Qed.

Lemma fail_fast_singleton {A : Type} (u : Op -> bool) (ev : Event) (r : result A) :
  (forall o e, ev = Called o (Some e) -> u o = false -> r = Err e) ->
  fail_fast u [ev] r.
Proof.
  intros Hev pre o e post H Hu.
  destruct pre as [|ev' pre]; [|by destruct pre].
  injection H as -> <-. split; [done |]. by apply (Hev o e).
Qed.

Lemma fails_fast_bind {A B : Type} (u : Op -> bool) (m : M St A) (k : A -> M St B) :
  fails_fast u m -> (forall a, fails_fast u (k a)) -> fails_fast u (bind m k).
Proof.
  intros Hm Hk s. specialize (Hm s).
  destruct (res (m s)) as [a|e'] eqn:Hres.
  - rewrite (bind_ok m k s a Hres). cbn [res events].
    intros pre o e post Htr Hu.
    apply app_eq_inv in Htr as [(l & H1 & H2) | (l & H1 & H2)].
    + destruct l as [|ev l].
      * rewrite app_nil_l in H2. by apply (Hk a (final (m s)) [] o e post).
      * injection H2 as <- ->.
        destruct (Hm pre o e l H1 Hu) as [_ Hr]. congruence.
    + by apply (Hk a (final (m s)) l o e post).
  - rewrite (bind_err m k s e' Hres). cbn [res events].
    intros pre o e post Htr Hu.
    destruct (Hm pre o e post Htr Hu) as [-> [= ->]]. done.
Qed.

Lemma fails_fast_ret {A : Type} (u : Op -> bool) (a : A) :
  fails_fast (St := St) u (ret a).
Proof. intros s. apply fail_fast_nil. Qed.

Lemma fails_fast_fail {A : Type} (u : Op -> bool) (e : error) :
  fails_fast (St := St) (A := A) u (fail e).
Proof. intros s. apply fail_fast_nil. Qed.

Lemma fails_fast_print (u : Op -> bool) (text : string) :
  fails_fast (St := St) u (print text).
Proof. intros s. by apply fail_fast_singleton. Qed.

Lemma fails_fast_Getenv (u : Op -> bool) (key : string) :
  fails_fast u (Getenv W key).
Proof. intros s. apply fail_fast_nil. Qed.

Lemma fails_fast_range_map (u : Op -> bool) (m : Status) :
  fails_fast u (range_map W m).
Proof. intros s. apply fail_fast_nil. Qed.

Lemma fails_fast_call (u : Op -> bool) (o : Op) : fails_fast u (call W o).
Proof.
  intros s. rewrite call_run. cbn [res events].
  destruct (respond W s o).1 as [a|e0]; cbn [result_err];
    apply fail_fast_singleton; intros o' e [= _ He] _; congruence.
Qed.

Lemma fails_fast_forM_ {A : Type} (u : Op -> bool) (l : list A)
    (body : A -> M St unit) :
  (forall x, fails_fast u (body x)) -> fails_fast u (forM_ l body).
Proof.
  intros Hbody. induction l as [|x l IH]; cbn [forM_].
  - apply fails_fast_ret.
  - by apply fails_fast_bind.
Qed.

(** [filepath.Abs] hides the error of [os.Getwd] from the monad: it is
    handed back as a value, which [add] then drops. *)
Lemma fails_fast_Abs (path : string) : fails_fast is_getwd (Abs W path).
Proof.
  unfold Abs. destruct (filepath.IsAbs path); [apply fails_fast_ret |].
  intros s. rewrite bind_perform.
  destruct (respond W s Getwd).1 as [wd|e0]; cbn [res events ret result_err app];
    apply fail_fast_singleton; intros o e1 [= <- _]; done.
Qed.

Lemma fails_fast_weaken {A : Type} (u : Op -> bool) (m : M St A) :
  fails_fast all_checked m -> fails_fast u m.
Proof.
  intros H s pre o e post Htr _. by apply (H s pre o e post).
Qed.

(** *** Where a returned error comes from *)

Lemma reports_origin_bind {A B : Type} (m : M St A) (k : A -> M St B) :
  reports_origin m -> (forall a, reports_origin (k a)) -> reports_origin (bind m k).
Proof.
  intros Hm Hk s e. specialize (Hm s).
  destruct (res (m s)) as [a|e'] eqn:Hres.
  - rewrite (bind_ok m k s a Hres). cbn [res events]. intros He.
    destruct (Hk a (final (m s)) e He) as [(pre & o & Hpre) | Hin]; [| by right].
    left. exists (events (m s) ++ pre), o. by rewrite Hpre, app_assoc.
  - rewrite (bind_err m k s e' Hres). cbn [res events]. intros [= <-].
    by apply Hm.
Qed.

Lemma reports_origin_ret {A : Type} (a : A) : reports_origin (St := St) (ret a).
Proof. by intros s e. Qed.

Lemma reports_origin_fail {A : Type} (e : error) :
  In e validation_errors -> reports_origin (St := St) (A := A) (fail e).
Proof. intros Hin s e' [= <-]. by right. Qed.

Lemma reports_origin_print (text : string) : reports_origin (St := St) (print text).
Proof. by intros s e. Qed.

Lemma reports_origin_Getenv (key : string) : reports_origin (Getenv W key).
Proof. by intros s e. Qed.

Lemma reports_origin_range_map (m : Status) : reports_origin (range_map W m).
Proof. by intros s e. Qed.

Lemma reports_origin_call (o : Op) : reports_origin (call W o).
Proof.
  intros s e. rewrite call_run. cbn [res events]. intros ->.
  left. by exists [], o.
Qed.

Lemma reports_origin_forM_ {A : Type} (l : list A) (body : A -> M St unit) :
  (forall x, reports_origin (body x)) -> reports_origin (forM_ l body).
Proof.
  intros Hbody. induction l as [|x l IH]; cbn [forM_].
  - apply reports_origin_ret.
  - by apply reports_origin_bind.
Qed.

Lemma reports_origin_Abs (path : string) : reports_origin (Abs W path).
Proof.
  unfold Abs. destruct (filepath.IsAbs path); [apply reports_origin_ret |].
  intros s e. rewrite bind_perform.
  by destruct (respond W s Getwd).1.
Qed.

End RunFacts.

(** Case analysis on the answer of the next operation of a run. *)
Ltac next_call W :=
  match goal with
  | |- context [bind (call W ?o) ?k ?s] =>
      let a := fresh "a" in
      let e := fresh "e" in
      let s' := fresh "s" in
      let E := fresh "E" in
      destruct (respond W s o) as [[a|e] s'] eqn:E;
      [ rewrite (bind_call_ok W o k s s' a E)
      | rewrite (bind_call_err W o k s s' e E) ];
      cbn [res final events]
  end.

(** Bring a run into the shape [bind m k s] with [m] atomic. *)
Ltac flatten_run :=
  repeat first
    [ rewrite bind_assoc
    | rewrite bind_ret_l
    | rewrite bind_Getenv
    | rewrite bind_range_map
    | rewrite bind_print ];
  cbn beta; cbn [res final events].

(** Fail-fast by structure: atomic steps first, then sequencing. *)
Ltac fails_fast_step :=
  first
    [ apply fails_fast_call
    | apply fails_fast_ret
    | apply fails_fast_fail
    | apply fails_fast_print
    | apply fails_fast_Getenv
    | apply fails_fast_range_map
    | assumption
    | apply fails_fast_bind; [fails_fast_step | intros ?; fails_fast_step] ].

Ltac reports_origin_step :=
  first
    [ apply reports_origin_call
    | apply reports_origin_ret
    | apply reports_origin_fail; by (left + (right; left))
    | apply reports_origin_print
    | apply reports_origin_Getenv
    | apply reports_origin_range_map
    | apply reports_origin_Abs
    | assumption
    | apply reports_origin_bind; [reports_origin_step | intros ?; reports_origin_step] ].

(** ** The command contracts *)

Section Contracts.
Context {St : Type} (W : World St).

(** *** Loops that only print *)

Lemma forM_print_run {A : Type} (g : A -> string) (l : list A) (s : St) :
  forM_ l (fun x => print (St := St) (g x)) s =
  {| res := Ok tt; final := s; events := map (fun x => Printed (g x)) l |}.
Proof.
  induction l as [|x l IH]; [done |].
  cbn [forM_]. rewrite bind_print, IH. done.
Qed.

(** *** [status] *)

Lemma status_lines_run (entries : list (string * FileStatus)) (s : St) :
  forM_ entries (fun '(f, fs) =>
    if status_shown (Worktree fs) then print (St := St) (status_line f fs)
    else ret tt) s =
  {| res := Ok tt; final := s;
     events := map (fun kv => Printed (status_line kv.1 kv.2))
                 (List.filter (fun kv => status_shown (Worktree kv.2)) entries) |}.
Proof.
  induction entries as [|[f fs] entries IH]; [done |].
  cbn [forM_ List.filter snd fst].
  destruct (status_shown (Worktree fs)).
  - by rewrite bind_print, IH.
  - by rewrite bind_ret_l, IH.
Qed.

(** A section of the status output when every step succeeds. *)
Lemma status_one_ok (repoName : string) (s s1 s2 s3 s4 : St)
    (st : Storer) (repo : Repository) (wt : WorktreeH) (status : Status) :
  respond W s (NewStorage (filepath.Join [dotfilesBasedir; repoName +:+ ".git"]))
    = (Ok st, s1) ->
  respond W s1 (Open st dotfilesWorkdir) = (Ok repo, s2) ->
  respond W s2 (GetWorktree repo) = (Ok wt, s3) ->
  respond W s3 (WtStatus wt) = (Ok status, s4) ->
  status_one W repoName s =
  {| res := Ok tt; final := s4;
     events :=
       Printed (repoName +:+ ":" +:+ nl)
       :: Called (NewStorage (filepath.Join [dotfilesBasedir; repoName +:+ ".git"])) None
       :: Called (Open st dotfilesWorkdir) None
       :: Called (GetWorktree repo) None
       :: Called (WtStatus wt) None
       :: map (fun kv => Printed (status_line kv.1 kv.2))
            (List.filter (fun kv => status_shown (Worktree kv.2))
               (map_order W s4 status)) |}.
Proof.
  intros E1 E2 E3 E4. unfold status_one, openWorkingRepo. flatten_run.
  rewrite (bind_call_ok W _ _ _ _ _ E1). flatten_run.
  rewrite (bind_call_ok W _ _ _ _ _ E2). flatten_run.
  rewrite (bind_call_ok W _ _ _ _ _ E3). flatten_run.
  rewrite (bind_call_ok W _ _ _ _ _ E4). flatten_run.
  by rewrite status_lines_run.
Qed.

Lemma storage_calls_lines (entries : list (string * FileStatus)) :
  storage_calls (map (fun kv => Printed (status_line kv.1 kv.2)) entries) = [].
Proof. by induction entries. Qed.

(** Every section starts with its header and one attempt to open the
    storage of that repo; no other storage is opened in the section. *)
Lemma status_one_events (repoName : string) (s : St) :
  exists err rest,
    events (status_one W repoName s) =
      Printed (repoName +:+ ":" +:+ nl)
      :: Called (NewStorage (filepath.Join [dotfilesBasedir; repoName +:+ ".git"])) err
      :: rest
    /\ storage_calls rest = [].
Proof.
  unfold status_one, openWorkingRepo. flatten_run.
  next_call W; [flatten_run | by eexists _, _].
  next_call W; [flatten_run | by eexists _, _].
  next_call W; [flatten_run | by eexists _, _].
  next_call W; [flatten_run | by eexists _, _].
  rewrite status_lines_run. cbn [events].
  eexists _, _. split; [done |].
  unfold storage_calls. cbn [collect]. apply storage_calls_lines.
Qed.

Lemma forM_status_run (names : list string) (s : St) :
  events (forM_ names (status_one W) s)
    = concat (map events (status_runs W names s))
  /\ (res (forM_ names (status_one W) s) = Ok tt ->
      length (status_runs W names s) = length names).
Proof.
  revert s; induction names as [|n names IH]; intros s; [done |].
  cbn [forM_ status_runs map concat length].
  destruct (res (status_one W n s)) as [[]|e] eqn:Hres.
  - rewrite (bind_ok _ _ _ tt Hres). cbn [res events map concat length].
    destruct (IH (final (status_one W n s))) as [-> Hlen].
    split; [done |]. intros H. by rewrite Hlen.
  - rewrite (bind_err _ _ _ e Hres). cbn [res events map concat].
    by rewrite app_nil_r.
Qed.

Lemma status_runs_length (names : list string) (s : St) :
  length (status_runs W names s) <= length names.
Proof.
  revert s; induction names as [|n names IH]; intros s; [done |].
  cbn [status_runs length].
  destruct (res (status_one W n s)); [|cbn; lia].
  specialize (IH (final (status_one W n s))). lia.
Qed.

Lemma status_runs_lookup (names : list string) (s : St) (i : nat) (r : Run St unit) :
  status_runs W names s !! i = Some r ->
  exists repoName s', names !! i = Some repoName /\ r = status_one W repoName s'.
Proof.
  revert s i; induction names as [|n names IH]; intros s i; [done |].
  cbn [status_runs]. destruct i as [|i].
  - intros [= <-]. by eexists _, _.
  - change ((?x :: ?l) !! S i) with (l !! i).
    destruct (res (status_one W n s)); [apply IH | done].
Qed.

(** The loop reaches index [i] when no earlier section failed. *)
Lemma status_runs_reach (names : list string) (s : St) (i : nat) :
  i < length names ->
  (forall j r, j < i -> status_runs W names s !! j = Some r -> res r = Ok tt) ->
  i < length (status_runs W names s).
Proof.
  revert s i; induction names as [|n names IH]; intros s i Hi Hok; [cbn in Hi; lia |].
  cbn [status_runs length] in *. destruct i as [|i]; [lia |].
  pose proof (Hok 0 (status_one W n s) ltac:(lia) eq_refl) as H0.
  rewrite H0 in *.
  apply ->Nat.succ_lt_mono. apply IH; [lia |].
  intros j r Hj Hr. apply (Hok (S j) r); [lia | done].
Qed.

Lemma storage_calls_status_runs (names : list string) (s : St) :
  storage_calls (concat (map events (status_runs W names s)))
    = take (length (status_runs W names s))
        (map (fun repoName =>
                filepath.Join [dotfilesBasedir; repoName +:+ ".git"]) names).
Proof.
  revert s; induction names as [|n names IH]; intros s; [done |].
  cbn [status_runs map concat length take].
  destruct (status_one_events n s) as (err & rest & -> & Hrest).
  unfold storage_calls in *. rewrite collect_app. cbn [collect].
  rewrite Hrest. cbn [app]. f_equal.
  destruct (res (status_one W n s)); [apply IH | done].
Qed.

(** A section that fails is the last one, and its error is the result of
    the loop. *)
Lemma status_runs_failed_last (names : list string) (s : St) (j : nat)
    (r : Run St unit) (e : error) :
  status_runs W names s !! j = Some r ->
  res r = Err e ->
  length (status_runs W names s) = S j
  /\ res (forM_ names (status_one W) s) = Err e.
Proof.
  revert s j; induction names as [|n names IH]; intros s j; [done |].
  cbn [forM_ status_runs]. destruct j as [|j].
  - intros [= <-] Hres. rewrite Hres, (bind_err _ _ _ e Hres). done.
  - change ((?x :: ?l) !! S j) with (l !! j).
    destruct (res (status_one W n s)) as [[]|e'] eqn:Hn; [| done].
    intros Hr Hres. rewrite (bind_ok _ _ _ tt Hn). cbn [res length].
    destruct (IH _ _ Hr Hres) as [-> ->]. done.
Qed.

(** The loop succeeds exactly when there is a section for every name and
    every section succeeded. *)
Lemma forM_status_ok (names : list string) (s : St) :
  res (forM_ names (status_one W) s) = Ok tt
  <-> length (status_runs W names s) = length names
      /\ forall j r, status_runs W names s !! j = Some r -> res r = Ok tt.
Proof.
  split.
  - intros Hok. split; [by apply forM_status_run |].
    intros j r Hr. destruct (res r) as [[]|e] eqn:Hres; [done |].
    destruct (status_runs_failed_last _ _ _ _ _ Hr Hres) as [_ Hfail].
    congruence.
  - revert s; induction names as [|n names IH]; intros s [Hlen Hall]; [done |].
    cbn [forM_ status_runs length] in *.
    pose proof (Hall 0 _ eq_refl) as Hn.
    rewrite (bind_ok _ _ _ tt Hn). cbn [res]. rewrite Hn in Hlen, Hall.
    apply IH. split; [cbn [length] in Hlen; lia |].
    intros j r Hr. by apply (Hall (S j)).
Qed.

Lemma status_repoNames_map (files : list string) :
  status_repoNames files = map (fun f => TrimSuffix f ".git") files.
Proof.
  unfold status_repoNames.
  enough (forall acc,
            fold_left (fun repoNames f => repoNames ++ [TrimSuffix f ".git"]) files acc
            = acc ++ map (fun f => TrimSuffix f ".git") files) as H by apply H.
  induction files as [|f files IH]; intros acc; cbn.
  - by rewrite app_nil_r.
  - by rewrite IH, <- app_assoc.
Qed.

Lemma printed_lines {A : Type} (g : A -> string) (l : list A) :
  printed (map (fun x => Printed (g x)) l) = map g l.
Proof. induction l as [|x l IH]; [done |]. cbn. by f_equal. Qed.

Lemma is_line_of_status_line (f f' : string) (fs : FileStatus) :
  is_line_of f (status_line f' fs) = String.eqb f' f.
Proof.
  unfold status_line, is_line_of.
  rewrite !GoStringFacts.append_cons, !GoStringFacts.append_nil.
  cbn [Ascii.eqb Bool.eqb andb].
  destruct (String.eqb_spec f' f) as [-> | Hne].
  - apply String.eqb_refl.
  - apply String.eqb_neq. intros H. by apply GoStringFacts.append_inj_l in H.
Qed.

(** Among the lines printed for entries with distinct file names, those
    about [f] are: the line of [f] if [f] is an entry with a shown code,
    none otherwise. *)
Lemma lines_of_file (entries : list (string * FileStatus)) (f : string) :
  NoDup (entries.*1) ->
  List.filter (is_line_of f)
    (map (fun kv => status_line kv.1 kv.2)
       (List.filter (fun kv => status_shown (Worktree kv.2)) entries))
  = match (list_to_map entries : Status) !! f with
    | Some fs => if status_shown (Worktree fs) then [status_line f fs] else []
    | None => []
    end.
Proof.
  induction entries as [|[f' fs'] entries IH]; intros Hnd.
  - by rewrite list_to_map_nil, lookup_empty.
  - rewrite fmap_cons in Hnd. apply NoDup_cons in Hnd as [Hnotin Hnd].
    rewrite list_to_map_cons. cbn [List.filter snd fst].
    destruct (decide (f' = f)) as [-> | Hne].
    + rewrite lookup_insert_eq.
      assert (List.filter (is_line_of f)
                (map (fun kv => status_line kv.1 kv.2)
                   (List.filter (fun kv => status_shown (Worktree kv.2)) entries))
              = []) as Hrest.
      { rewrite (IH Hnd).
        by rewrite (not_elem_of_list_to_map_1 entries f Hnotin). }
      destruct (status_shown (Worktree fs')); [|done].
      cbn [map List.filter fst snd].
      by rewrite is_line_of_status_line, String.eqb_refl, Hrest.
    + rewrite lookup_insert_ne by done. rewrite <- (IH Hnd).
      destruct (status_shown (Worktree fs')); [|done].
      cbn [map List.filter fst snd].
      rewrite is_line_of_status_line.
      by destruct (String.eqb_spec f' f).
Qed.

Lemma status_shown_codes (c : StatusCode) :
  status_shown c = true <-> c = Modified \/ c = Added \/ c = Deleted.
Proof.
  unfold status_shown. rewrite !orb_true_iff, !Ascii.eqb_eq. tauto.
Qed.

(** C6: in the section of a repo whose status the engine reports as
    [status], the lines after the header are status lines only: for a
    file of [status] with worktree code Modified, Added or Deleted there
    is exactly one line about it, made of that code in brackets, a blank
    and the file name; for any other file there is no line; and every
    line is the line of such a file. *)
Theorem status_prints_changed_files (repoName : string) (s s1 s2 s3 s4 : St)
    (st : Storer) (repo : Repository) (wt : WorktreeH) (status : Status) :
  range_visits_all W ->
  respond W s (NewStorage (filepath.Join [dotfilesBasedir; repoName +:+ ".git"]))
    = (Ok st, s1) ->
  respond W s1 (Open st dotfilesWorkdir) = (Ok repo, s2) ->
  respond W s2 (GetWorktree repo) = (Ok wt, s3) ->
  respond W s3 (WtStatus wt) = (Ok status, s4) ->
  exists lines,
    printed (events (status_one W repoName s)) = (repoName +:+ ":" +:+ nl) :: lines
    /\ (forall f fs,
          status !! f = Some fs ->
          List.filter (is_line_of f) lines
            = if status_shown (Worktree fs)
              then ["[" +:+ String (Worktree fs) "" +:+ "] " +:+ f +:+ nl]
              else [])
    /\ (forall f, status !! f = None -> List.filter (is_line_of f) lines = [])
    /\ Forall (fun l => exists f fs,
                 status !! f = Some fs
                 /\ (Worktree fs = Modified \/ Worktree fs = Added
                     \/ Worktree fs = Deleted)
                 /\ l = "[" +:+ String (Worktree fs) "" +:+ "] " +:+ f +:+ nl)
         lines
    /\ (forall c, status_shown c = true
                  <-> c = Modified \/ c = Added \/ c = Deleted).
Proof.
  intros Hrange E1 E2 E3 E4.
  rewrite (status_one_ok repoName s s1 s2 s3 s4 st repo wt status E1 E2 E3 E4).
  cbn [events]. unfold printed at 1. cbn [collect]. fold (printed).
  rewrite (printed_lines (fun kv => status_line kv.1 kv.2)).
  eexists. split; [reflexivity |].
  pose proof (Hrange s4 status) as Hperm.
  assert (NoDup ((map_order W s4 status).*1)) as Hnd.
  { rewrite Hperm. apply NoDup_fst_map_to_list. }
  assert ((list_to_map (map_order W s4 status) : Status) = status) as Hmap.
  { rewrite (list_to_map_proper _ _ Hnd Hperm). apply list_to_map_to_list. }
  split; [| split; [| split]].
  - intros f fs Hf. by rewrite (lines_of_file _ f Hnd), Hmap, Hf.
  - intros f Hf. by rewrite (lines_of_file _ f Hnd), Hmap, Hf.
  - apply Forall_forall. intros l Hl. apply list_elem_of_In in Hl.
    apply in_map_iff in Hl as ([f fs] & <- & Hin).
    apply filter_In in Hin as [Hin Hshown].
    exists f, fs. split; [| split; [by apply status_shown_codes | done]].
    apply elem_of_map_to_list. rewrite <- Hperm. by apply list_elem_of_In.
  - apply status_shown_codes.
Qed.

Lemma lookup_map {A B : Type} (f : A -> B) (l : list A) (i : nat) :
  map f l !! i = f <$> (l !! i).
Proof.
  revert i; induction l as [|x l IH]; intros [|i]; try done. apply IH.
Qed.

Lemma executeStatus_all_run (s s1 : St) (files : list string) :
  respond W s (ReadDir dotfilesBasedir) = (Ok files, s1) ->
  res (executeStatus W "" s) = res (forM_ (status_repoNames files) (status_one W) s1)
  /\ events (executeStatus W "" s)
     = Called (ReadDir dotfilesBasedir) None
       :: events (forM_ (status_repoNames files) (status_one W) s1).
Proof.
  intros E. unfold executeStatus. cbn [String.eqb]. flatten_run.
  by rewrite (bind_call_ok W _ _ _ _ _ E), bind_ret_l.
Qed.

(** C5, as the code has it: run without a repo name, [status] turns the
    directory listing into one repo name per entry, in listing order; an
    entry [stem.git] yields [stem], whose storage path is that entry
    again.  The output is the sequence of the sections of these names in
    that order, each section being one run of the loop body, headed by
    the name and opening the storage of that name once.  The sequence is
    cut after the first section that fails: that section is the last
    one, its error is the result of the command, and the entries after it
    get no section.  The command succeeds exactly when every entry got
    its section and every section succeeded. *)
Theorem status_enumerates_in_listing_order (s s1 : St) (files : list string) :
  respond W s (ReadDir dotfilesBasedir) = (Ok files, s1) ->
  let names := map (fun f => TrimSuffix f ".git") files in
  let runs := status_runs W names s1 in
  status_repoNames files = names
  /\ (forall stem, TrimSuffix (stem +:+ ".git") ".git" = stem)
  /\ events (executeStatus W "" s)
     = Called (ReadDir dotfilesBasedir) None :: concat (map events runs)
  /\ (forall i r,
        runs !! i = Some r ->
        exists repoName s' rest,
          names !! i = Some repoName
          /\ r = status_one W repoName s'
          /\ events r = Printed (repoName +:+ ":" +:+ nl) :: rest)
  /\ storage_calls (events (executeStatus W "" s))
     = take (length runs)
         (map (fun repoName =>
                 filepath.Join [dotfilesBasedir; repoName +:+ ".git"]) names)
  /\ length runs <= length names
  /\ (forall j r e,
        runs !! j = Some r ->
        res r = Err e ->
        length runs = S j /\ res (executeStatus W "" s) = Err e)
  /\ (res (executeStatus W "" s) = Ok tt
      <-> length runs = length names
          /\ forall j r, runs !! j = Some r -> res r = Ok tt).
Proof.
  intros E names runs. subst names runs.
  destruct (executeStatus_all_run s s1 files E) as [Hres Hev].
  rewrite Hres, Hev, status_repoNames_map.
  destruct (forM_status_run (map (fun f => TrimSuffix f ".git") files) s1)
    as [Hloop Hlen].
  rewrite Hloop.
  split; [done |].
  split; [intros stem; apply GoStringFacts.TrimSuffix_append |].
  split; [done |].
  split.
  { intros i r Hr.
    destruct (status_runs_lookup _ _ _ _ Hr) as (n & s' & Hn & ->).
    destruct (status_one_events n s') as (err & rest & Hrest & _).
    by eexists n, s', _. }
  split.
  { unfold storage_calls at 1. cbn [collect].
    apply storage_calls_status_runs. }
  split; [apply status_runs_length |].
  split; [apply status_runs_failed_last | apply forM_status_ok].
Qed.

(** C10, as the code has it: run without a repo name, [status] also
    enumerates the entries of the base directory whose name does not end
    in [.git]: the trim leaves such a name unchanged and it takes the
    entry's place in the list of repo names.  Whether [status] then tries
    to open it depends on the sections before it: if they all succeeded,
    the storage at that name followed by [.git] is opened; if one of them
    failed, the command ended there with that error and the entry is not
    attempted. *)
Theorem status_enumerates_other_entries (s s1 : St) (files : list string)
    (i : nat) (entry : string) :
  respond W s (ReadDir dotfilesBasedir) = (Ok files, s1) ->
  files !! i = Some entry ->
  HasSuffix entry ".git" = false ->
  TrimSuffix entry ".git" = entry
  /\ status_repoNames files !! i = Some entry
  /\ ((forall j r,
         j < i ->
         status_runs W (status_repoNames files) s1 !! j = Some r ->
         res r = Ok tt) ->
      storage_calls (events (executeStatus W "" s)) !! i
        = Some (filepath.Join [dotfilesBasedir; entry +:+ ".git"]))
  /\ (forall j r e,
        j < i ->
        status_runs W (status_repoNames files) s1 !! j = Some r ->
        res r = Err e ->
        storage_calls (events (executeStatus W "" s)) !! i = None
        /\ res (executeStatus W "" s) = Err e).
Proof.
  intros E Hi Hsuffix.
  pose proof (GoStringFacts.TrimSuffix_no _ _ Hsuffix) as Htrim.
  assert (status_repoNames files !! i = Some entry) as Hname.
  { rewrite status_repoNames_map, lookup_map, Hi. cbn. by rewrite Htrim. }
  split; [done |]. split; [done |].
  destruct (executeStatus_all_run s s1 files E) as [-> ->].
  destruct (forM_status_run (status_repoNames files) s1) as [-> _].
  unfold storage_calls at 1 2. cbn [collect].
  rewrite storage_calls_status_runs.
  split.
  - intros Hok. rewrite lookup_take_lt.
    + by rewrite lookup_map, Hname.
    + apply status_runs_reach; [|done].
      by apply lookup_lt_Some in Hname.
  - intros j r e Hj Hr Hres.
    destruct (status_runs_failed_last _ _ _ _ _ Hr Hres) as [Hlen Hfail].
    split; [| done].
    apply lookup_take_ge. lia.
Qed.

(** *** [undo], [list] and [save] *)

(** C9: whatever repo name is given, [undo] is parsed but selects no case
    of the dispatch switch: no operation is called, nothing is printed,
    the world is left as it was, and the exit status is 0. *)
Theorem undo_is_never_dispatched (a : Args) (s : St) :
  main W "undo" a s = {| res := Ok 0; final := s; events := [] |}.
Proof. reflexivity. Qed.

(** C7: [list] with the verbose flag returns the fixed "not implemented"
    error and touches nothing, in particular it does not read the base
    directory.  Without the flag it reads the base directory; if that
    fails it returns the error and prints nothing, otherwise it prints
    exactly one line per entry, in listing order: the entry name minus
    the extension [filepath.Ext] finds at its end, so that the printed
    stem followed by that extension is the name again. *)
Theorem list_contract (s : St) :
  executeList W true s =
    {| res := Err "verbose listing not implemented."; final := s; events := [] |}
  /\ (forall files s',
        respond W s (ReadDir dotfilesBasedir) = (Ok files, s') ->
        executeList W false s =
          {| res := Ok tt; final := s';
             events :=
               Called (ReadDir dotfilesBasedir) None
               :: map (fun name =>
                         Printed (TrimSuffix name (filepath.Ext name) +:+ nl))
                    files |}
        /\ Forall (fun name =>
             TrimSuffix name (filepath.Ext name) +:+ filepath.Ext name = name
             /\ is_extension (filepath.Ext name) = true) files)
  /\ (forall e s',
        respond W s (ReadDir dotfilesBasedir) = (Err e, s') ->
        executeList W false s =
          {| res := Err e; final := s';
             events := [Called (ReadDir dotfilesBasedir) (Some e)] |}).
Proof.
  split; [done |]. split.
  - intros files s' Hdir. unfold executeList.
    rewrite (bind_call_ok W _ _ _ _ _ Hdir).
    rewrite (forM_print_run
               (fun name => TrimSuffix name (filepath.Ext name) +:+ nl)).
    cbn [res final events]. split; [done |].
    apply Forall_forall. intros name _. split.
    + apply FilepathFacts.TrimSuffix_Ext.
    + apply FilepathFacts.Ext_is_extension.
  - intros e s' Hdir. unfold executeList.
    by rewrite (bind_call_err W _ _ _ _ _ Hdir).
Qed.

(** C2: if the author name or the author email is empty in the
    environment, [save] returns an error and its trace contains neither a
    commit nor a push, whatever the repo name and the message. *)
Theorem save_requires_author (repoName msg : string) (s : St) :
  (forall s', environ W s' "GIT_AUTHOR_NAME" = ""
              \/ environ W s' "GIT_AUTHOR_EMAIL" = "") ->
  (exists e, res (executeSave W repoName msg s) = Err e)
  /\ Forall (fun o => is_commit o = false /\ is_push o = false)
       (called (events (executeSave W repoName msg s))).
Proof.
  intros Henv. unfold executeSave, openWorkingRepo, getAuthor.
  flatten_run.
  next_call W; [flatten_run | split; [eauto | repeat constructor]].
  next_call W; [flatten_run | split; [eauto | repeat constructor]].
  next_call W; [flatten_run | split; [eauto | repeat constructor]].
  cbn [Name Email].
  assert (String.eqb (environ W s2 "GIT_AUTHOR_NAME") ""
          || String.eqb (environ W s2 "GIT_AUTHOR_EMAIL") "" = true) as ->.
  { destruct (Henv s2) as [-> | ->]; cbn; [done | apply orb_true_r]. }
  rewrite bind_fail. cbn [res events].
  split; [eauto | repeat constructor].
Qed.

(** *** [add] *)

Lemma bind_Abs {B : Type} (cwd path : string)
    (k : string * option error -> M St B) (s : St) :
  cwd_is W cwd ->
  exists s' pre,
    bind (Abs W path) k s =
    {| res := res (k (abs_in cwd path, None) s');
       final := final (k (abs_in cwd path, None) s');
       events := pre ++ events (k (abs_in cwd path, None) s') |}
    /\ add_calls pre = [].
Proof.
  intros Hcwd. unfold Abs, abs_in.
  destruct (filepath.IsAbs path).
  - exists s, []. split; [|done]. rewrite bind_ret_l. cbn [app].
    by rewrite run_eta.
  - rewrite bind_assoc, bind_perform, (Hcwd s), bind_ret_l.
    by exists (respond W s Getwd).2, [Called Getwd None].
Qed.

(** What [add] does once the working directory of the process is known:
    either opening the repository fails and nothing is staged, or exactly
    one staging call is made, on the doubly trimmed path, and its error is
    the result of the command. *)
Lemma executeAdd_run (cwd repoName addfile : string) (s : St) :
  cwd_is W cwd ->
  let r := executeAdd W repoName addfile s in
  let path :=
    TrimPrefix (TrimPrefix (abs_in cwd addfile) (abs_in cwd dotfilesWorkdir))
      (String filepath.Separator "") in
  (add_calls (events r) = []
   /\ exists e pre o, res r = Err e /\ events r = pre ++ [Called o (Some e)]
                      /\ is_open_step o = true)
  \/ (exists err, add_calls (events r) = [(path, err)]
                  /\ res r = match err with
                             | None => Ok tt
                             | Some e => Err e
                             end).
Proof.
  intros Hcwd. cbn zeta. unfold executeAdd, openWorkingRepo.
  flatten_run.
  next_call W; [flatten_run | left; split; [done |]].
  2: { eexists e, [_], _. done. }
  next_call W; [flatten_run | left; split; [done |]].
  2: { eexists e, [_; _], _. done. }
  next_call W; [flatten_run | left; split; [done |]].
  2: { eexists e, [_; _; _], _. done. }
  match goal with
  | |- context [bind (Abs W addfile) ?k ?s] =>
      destruct (bind_Abs cwd addfile k s Hcwd) as (s3 & pre1 & -> & Hpre1)
  end.
  cbn [res final events fst].
  match goal with
  | |- context [bind (Abs W dotfilesWorkdir) ?k ?s] =>
      destruct (bind_Abs cwd dotfilesWorkdir k s Hcwd) as (s4 & pre2 & -> & Hpre2)
  end.
  cbn [res final events fst]. right.
  unfold add_calls in *. cbn [collect].
  rewrite !collect_app, Hpre1, Hpre2. cbn [app].
  next_call W; flatten_run; cbn [collect]; by eexists.
Qed.

Lemma abs_in_no_double_separator (cwd path : string) :
  no_double_separator (abs_in cwd path).
Proof.
  unfold abs_in. destruct (filepath.IsAbs path).
  - apply FilepathFacts.Clean_no_double_separator.
  - apply FilepathFacts.Join_no_double_separator.
Qed.

(** C1, as the code has it: with [os.Getwd] answering [cwd], a file
    inside the working directory, that is, one whose absolute path is the
    absolute working directory, one separator, and a rest [rel], is
    staged under exactly [rel]: the two trims leave [rel], which has no
    leading separator, and unless one of the steps that open the
    repository fails, in which case that error is returned and nothing
    is staged, the staging operation is called exactly once, on [rel],
    and its outcome is the result of the command. *)
Theorem add_stages_relative_path (cwd repoName addfile rel : string) (s : St) :
  cwd_is W cwd ->
  abs_in cwd addfile = abs_in cwd dotfilesWorkdir +:+ "/" +:+ rel ->
  TrimPrefix (TrimPrefix (abs_in cwd addfile) (abs_in cwd dotfilesWorkdir)) "/" = rel
  /\ HasPrefix rel "/" = false
  /\ ((add_calls (events (executeAdd W repoName addfile s)) = []
       /\ exists e pre o,
            res (executeAdd W repoName addfile s) = Err e
            /\ events (executeAdd W repoName addfile s) = pre ++ [Called o (Some e)]
            /\ is_open_step o = true)
      \/ (exists err,
            add_calls (events (executeAdd W repoName addfile s)) = [(rel, err)]
            /\ res (executeAdd W repoName addfile s)
               = match err with
                 | None => Ok tt
                 | Some e => Err e
                 end)).
Proof.
  intros Hcwd Hin.
  assert (TrimPrefix (TrimPrefix (abs_in cwd addfile)
                        (abs_in cwd dotfilesWorkdir)) "/" = rel) as Hpath.
  { rewrite Hin, GoStringFacts.TrimPrefix_append.
    apply GoStringFacts.TrimPrefix_append. }
  split; [done |]. split.
  { apply (FilepathFacts.no_leading_separator_after (abs_in cwd dotfilesWorkdir)).
    rewrite <- Hin. apply abs_in_no_double_separator. }
  destruct (executeAdd_run cwd repoName addfile s Hcwd)
    as [Hfail | (err & Hcalls & Hres)]; [by left | right].
  change (String filepath.Separator "") with "/" in Hcalls.
  rewrite Hpath in Hcalls. by exists err.
Qed.


(** *** [init] *)


(** *** Error propagation *)

Lemma fails_fast_openWorkingRepo (repoName : string) :
  fails_fast all_checked (openWorkingRepo W repoName).
Proof.
  unfold openWorkingRepo. fails_fast_step.
Qed.

Lemma fails_fast_getAuthMethod : fails_fast all_checked (getAuthMethod W).
Proof.
  unfold getAuthMethod. fails_fast_step.
Qed.

Lemma fails_fast_getAuthor : fails_fast all_checked (getAuthor W).
Proof.
  unfold getAuthor.
  apply fails_fast_bind; [apply fails_fast_Getenv | intros name].
  apply fails_fast_bind; [apply fails_fast_Getenv | intros email].
  destruct (_ || _); [apply fails_fast_fail | apply fails_fast_ret].
Qed.

Lemma fails_fast_status_one (repoName : string) :
  fails_fast all_checked (status_one W repoName).
Proof.
  unfold status_one.
  apply fails_fast_bind; [apply fails_fast_print | intros _].
  apply fails_fast_bind; [apply fails_fast_openWorkingRepo | intros repo].
  apply fails_fast_bind; [apply fails_fast_call | intros wt].
  apply fails_fast_bind; [apply fails_fast_call | intros st].
  apply fails_fast_bind; [apply fails_fast_range_map | intros entries].
  apply fails_fast_forM_. intros [f fs].
  destruct (status_shown _); [apply fails_fast_print | apply fails_fast_ret].
Qed.

Lemma reports_origin_openWorkingRepo (repoName : string) :
  reports_origin (openWorkingRepo W repoName).
Proof. unfold openWorkingRepo. reports_origin_step. Qed.

Lemma reports_origin_getAuthMethod : reports_origin (getAuthMethod W).
Proof. unfold getAuthMethod. reports_origin_step. Qed.

Lemma reports_origin_getAuthor : reports_origin (getAuthor W).
Proof.
  unfold getAuthor.
  apply reports_origin_bind; [apply reports_origin_Getenv | intros name].
  apply reports_origin_bind; [apply reports_origin_Getenv | intros email].
  destruct (_ || _); reports_origin_step.
Qed.

Lemma reports_origin_status_one (repoName : string) :
  reports_origin (status_one W repoName).
Proof.
  unfold status_one.
  apply reports_origin_bind; [apply reports_origin_print | intros _].
  apply reports_origin_bind; [apply reports_origin_openWorkingRepo | intros repo].
  apply reports_origin_bind; [apply reports_origin_call | intros wt].
  apply reports_origin_bind; [apply reports_origin_call | intros st].
  apply reports_origin_bind; [apply reports_origin_range_map | intros entries].
  apply reports_origin_forM_. intros [f fs].
  destruct (status_shown _); reports_origin_step.
Qed.

Lemma propagates_executeInit (repoUrl : string) :
  propagates_errors all_checked (executeInit W repoUrl).
Proof.
  unfold executeInit, baseName.
  pose proof fails_fast_getAuthMethod. pose proof reports_origin_getAuthMethod.
  split; [fails_fast_step | reports_origin_step].
Qed.

Lemma propagates_executeList (verbose : bool) :
  propagates_errors all_checked (executeList W verbose).
Proof.
  destruct verbose; unfold executeList.
  - split; [apply fails_fast_fail | reports_origin_step].
  - split.
    + apply fails_fast_bind; [apply fails_fast_call | intros files].
      apply fails_fast_forM_. intros name. apply fails_fast_print.
    + apply reports_origin_bind; [apply reports_origin_call | intros files].
      apply reports_origin_forM_. intros name. apply reports_origin_print.
Qed.

Lemma propagates_executeStatus (repoName : string) :
  propagates_errors all_checked (executeStatus W repoName).
Proof.
  unfold executeStatus. split.
  - apply fails_fast_bind.
    + destruct (String.eqb repoName ""); fails_fast_step.
    + intros names. apply fails_fast_forM_, fails_fast_status_one.
  - apply reports_origin_bind.
    + destruct (String.eqb repoName ""); reports_origin_step.
    + intros names. apply reports_origin_forM_, reports_origin_status_one.
Qed.

Lemma propagates_executeAdd (repoName addfile : string) :
  propagates_errors is_getwd (executeAdd W repoName addfile).
Proof.
  unfold executeAdd.
  pose proof (fails_fast_weaken is_getwd _ (fails_fast_openWorkingRepo repoName)).
  pose proof (fails_fast_Abs W addfile).
  pose proof (fails_fast_Abs W dotfilesWorkdir).
  pose proof (reports_origin_openWorkingRepo repoName).
  split; [fails_fast_step | reports_origin_step].
Qed.

Lemma propagates_executeSave (repoName msg : string) :
  propagates_errors all_checked (executeSave W repoName msg).
Proof.
  unfold executeSave.
  pose proof fails_fast_getAuthMethod. pose proof fails_fast_getAuthor.
  pose proof (fails_fast_openWorkingRepo repoName).
  pose proof reports_origin_getAuthMethod. pose proof reports_origin_getAuthor.
  pose proof (reports_origin_openWorkingRepo repoName).
  split; [fails_fast_step | reports_origin_step].
Qed.

Lemma propagates_executePull (repoName : string) :
  propagates_errors all_checked (executePull W repoName).
Proof.
  unfold executePull.
  pose proof fails_fast_getAuthMethod.
  pose proof (fails_fast_openWorkingRepo repoName).
  pose proof reports_origin_getAuthMethod.
  pose proof (reports_origin_openWorkingRepo repoName).
  split; [fails_fast_step | reports_origin_step].
Qed.

Lemma executeSave_push_failure (repoName msg : string) (s s1 s2 s3 s4 s5 s6 : St)
    (st : Storer) (repo : Repository) (wt : WorktreeH) (h : Hash)
    (auth : AuthMethod) (e : error) :
  respond W s (NewStorage (filepath.Join [dotfilesBasedir; repoName +:+ ".git"]))
    = (Ok st, s1) ->
  respond W s1 (Open st dotfilesWorkdir) = (Ok repo, s2) ->
  respond W s2 (GetWorktree repo) = (Ok wt, s3) ->
  environ W s3 "GIT_AUTHOR_NAME" <> "" ->
  environ W s3 "GIT_AUTHOR_EMAIL" <> "" ->
  respond W s3 (Commit wt msg true
                  {| Name := environ W s3 "GIT_AUTHOR_NAME";
                     Email := environ W s3 "GIT_AUTHOR_EMAIL" |}) = (Ok h, s4) ->
  respond W s4 (NewSSHAgentAuth "git") = (Ok auth, s5) ->
  respond W s5 (Push repo auth) = (Err e, s6) ->
  executeSave W repoName msg s =
  {| res := Err e;
     final := s6;
     events :=
       [Called (NewStorage (filepath.Join [dotfilesBasedir; repoName +:+ ".git"])) None;
        Called (Open st dotfilesWorkdir) None;
        Called (GetWorktree repo) None;
        Called (Commit wt msg true
                  {| Name := environ W s3 "GIT_AUTHOR_NAME";
                     Email := environ W s3 "GIT_AUTHOR_EMAIL" |}) None;
        Called (NewSSHAgentAuth "git") None;
        Called (Push repo auth) (Some e)] |}.
Proof.
  intros E1 E2 E3 Hname Hemail E4 E5 E6.
  unfold executeSave, openWorkingRepo, getAuthor, getAuthMethod.
  flatten_run.
  rewrite (bind_call_ok W _ _ _ _ _ E1). flatten_run.
  rewrite (bind_call_ok W _ _ _ _ _ E2). flatten_run.
  rewrite (bind_call_ok W _ _ _ _ _ E3). flatten_run.
  cbn [Name Email].
  apply String.eqb_neq in Hname, Hemail. rewrite Hname, Hemail.
  cbn [orb]. flatten_run.
  rewrite (bind_call_ok W _ _ _ _ _ E4). flatten_run.
  rewrite (bind_call_ok W _ _ _ _ _ E5). flatten_run.
  rewrite (bind_call_err W _ _ _ _ _ E6). reflexivity.
Qed.

(** [main] adds nothing to what [save] did but the printed error. *)
Lemma main_save_run (a : Args) (s : St) :
  called (events (main W "save" a s))
    = called (events (executeSave W (saveRepo a) (saveMsg a) s))
  /\ final (main W "save" a s)
     = final (executeSave W (saveRepo a) (saveMsg a) s)
  /\ res (main W "save" a s)
     = Ok (match res (executeSave W (saveRepo a) (saveMsg a) s) with
           | Ok _ => 0
           | Err _ => 1
           end).
Proof.
  unfold main.
  change (String.eqb "save" "init") with false.
  change (String.eqb "save" "list") with false.
  change (String.eqb "save" "status") with false.
  change (String.eqb "save" "add") with false.
  change (String.eqb "save" "save") with true.
  cbv iota zeta.
  destruct (res (executeSave W (saveRepo a) (saveMsg a) s)); cbn [res final events].
  - done.
  - split; [| done]. unfold called. rewrite collect_app. cbn [collect].
    apply app_nil_r.
Qed.

(** C8, as the code has it: in every command a failed operation whose
    error is checked is the last event of the run and its error is the
    result, so nothing is called, and nothing undone, afterwards; an error
    returned is that of the last operation called or one of the two
    validation errors.  The errors that are not checked are those of the
    two [filepath.Abs] calls of [add] (a failed [os.Getwd]), after which
    [add] carries on.  In [save], when the commit succeeds and the push
    then fails, the result is the push error and the world is left as the
    failed push left it: nothing is called after the push, by [save] or
    by [main], so the commit stays. *)
Theorem errors_abort_commands :
  (forall repoUrl, propagates_errors all_checked (executeInit W repoUrl))
  /\ (forall verbose, propagates_errors all_checked (executeList W verbose))
  /\ (forall repoName, propagates_errors all_checked (executeStatus W repoName))
  /\ (forall repoName addfile,
        propagates_errors is_getwd (executeAdd W repoName addfile))
  /\ (forall repoName msg, propagates_errors all_checked (executeSave W repoName msg))
  /\ (forall repoName, propagates_errors all_checked (executePull W repoName))
  /\ (forall repoName msg s st s1 repo s2 wt s3 h s4 auth s5 e s6,
        respond W s (NewStorage (filepath.Join [dotfilesBasedir; repoName +:+ ".git"]))
          = (Ok st, s1) ->
        respond W s1 (Open st dotfilesWorkdir) = (Ok repo, s2) ->
        respond W s2 (GetWorktree repo) = (Ok wt, s3) ->
        environ W s3 "GIT_AUTHOR_NAME" <> "" ->
        environ W s3 "GIT_AUTHOR_EMAIL" <> "" ->
        respond W s3 (Commit wt msg true
                        {| Name := environ W s3 "GIT_AUTHOR_NAME";
                           Email := environ W s3 "GIT_AUTHOR_EMAIL" |}) = (Ok h, s4) ->
        respond W s4 (NewSSHAgentAuth "git") = (Ok auth, s5) ->
        respond W s5 (Push repo auth) = (Err e, s6) ->
        executeSave W repoName msg s =
        {| res := Err e;
           final := s6;
           events :=
             [Called (NewStorage (filepath.Join [dotfilesBasedir; repoName +:+ ".git"])) None;
              Called (Open st dotfilesWorkdir) None;
              Called (GetWorktree repo) None;
              Called (Commit wt msg true
                        {| Name := environ W s3 "GIT_AUTHOR_NAME";
                           Email := environ W s3 "GIT_AUTHOR_EMAIL" |}) None;
              Called (NewSSHAgentAuth "git") None;
              Called (Push repo auth) (Some e)] |})
  /\ (forall a s,
        called (events (main W "save" a s))
          = called (events (executeSave W (saveRepo a) (saveMsg a) s))
        /\ final (main W "save" a s)
           = final (executeSave W (saveRepo a) (saveMsg a) s)
        /\ res (main W "save" a s)
           = Ok (match res (executeSave W (saveRepo a) (saveMsg a) s) with
                 | Ok _ => 0
                 | Err _ => 1
                 end)).
Proof.
  refine (conj _ (conj _ (conj _ (conj _ (conj _ (conj _ (conj _ _))))))).
  - exact propagates_executeInit.
  - exact propagates_executeList.
  - exact propagates_executeStatus.
  - exact propagates_executeAdd.
  - exact propagates_executeSave.
  - exact propagates_executePull.
  - intros. by eapply executeSave_push_failure.
  - exact main_save_run.
Qed.

End Contracts.

(** ** The contracts on the simulated world *)

Example Clean_examples :
  filepath.Clean "/home/u/./workdir/../workdir//x/" = "/home/u/workdir/x"
  /\ filepath.Clean "../../a/../.." = "../../.."
  /\ filepath.Clean "/.." = "/"
  /\ filepath.Join [dotfilesBasedir; "core" +:+ ".git"] = "dotfiles/core.git".
Proof. repeat split; vm_compute; reflexivity. Qed.

Example Base_Ext_examples :
  filepath.Base "https://host/user/dotfiles-core.git//" = "dotfiles-core.git"
  /\ filepath.Base "///" = "/"
  /\ filepath.Ext "vim.tar.gz" = ".gz"
  /\ filepath.Ext "a.b/notes" = ""
  /\ TrimSuffix "notes" ".git" = "notes".
Proof. repeat split; vm_compute; reflexivity. Qed.

(** [status] meets the stray entry: the error is printed last and the
    exit status is 1. *)
Example main_status_exit :
  res (main sim_world "status" sim_args sim_home) = Ok 1
  /\ last (events (main sim_world "status" sim_args sim_home))
     = Some (Printed ("repository not exists" +:+ nl)).
Proof. split; vm_compute; reflexivity. Qed.

(** A file in a sibling directory whose name extends that of the working
    directory: the first trim cuts inside the directory name. *)
Example add_sibling_directory :
  abs_in "/home/u" "workdir2/x" = "/home/u/workdir2/x"
  /\ add_calls (events (executeAdd sim_world "core" "workdir2/x" sim_home))
     = [("2/x", None)].
Proof. split; vm_compute; reflexivity. Qed.


Lemma sim_cwd_is : cwd_is sim_world "/home/u".
Proof. intros s. reflexivity. Defined.

Lemma sim_range_visits_all : range_visits_all sim_world.
Proof. intros s m. reflexivity. Defined.

(** With [os.Getwd] failing, a file inside the working directory is not
    staged under its relative path: both absolute paths come out empty
    and the staging call is made on the empty path. *)
Lemma add_without_cwd_stages_empty_path :
  abs_in "/home/u" "workdir/.bashrc"
    = abs_in "/home/u" dotfilesWorkdir +:+ "/" +:+ ".bashrc"
  /\ add_calls (events (executeAdd sim_world "core" "workdir/.bashrc" sim_home))
     = [(".bashrc", None)]
  /\ add_calls (events (executeAdd sim_world_lost "core" "workdir/.bashrc" sim_home))
     = [("", Some "file does not exist")].
Proof. repeat split; vm_compute; reflexivity. Qed.

(** A file inside the working directory of an existing repository is
    staged, once, under its relative path. *)
Lemma add_stages_relative_path_witness :
  abs_in "/home/u" "workdir/.bashrc"
    = abs_in "/home/u" dotfilesWorkdir +:+ "/" +:+ ".bashrc"
  /\ add_calls (events (executeAdd sim_world "core" "workdir/.bashrc" sim_home))
     = [(".bashrc", None)]
  /\ res (executeAdd sim_world "core" "workdir/.bashrc" sim_home) = Ok tt.
Proof.
  assert (abs_in "/home/u" "workdir/.bashrc"
          = abs_in "/home/u" dotfilesWorkdir +:+ "/" +:+ ".bashrc") as Hin
    by (vm_compute; reflexivity).
  split; [exact Hin |].
  destruct (add_stages_relative_path sim_world "/home/u" "core" "workdir/.bashrc"
              ".bashrc" sim_home sim_cwd_is Hin)
    as (_ & _ & [[_ (e & _ & _ & Hres & _)] | ([e|] & Hcalls & Hres)]).
  - exfalso. revert Hres. vm_compute. discriminate.
  - exfalso. revert Hres. vm_compute. discriminate.
  - split; [exact Hcalls | exact Hres].
Defined.

(** With an empty environment [save] stops at the author check. *)
Lemma save_requires_author_witness :
  (exists e, res (executeSave sim_world_noenv "core" "update" sim_home) = Err e)
  /\ Forall (fun o => is_commit o = false /\ is_push o = false)
       (called (events (executeSave sim_world_noenv "core" "update" sim_home))).
Proof.
  apply (save_requires_author sim_world_noenv "core" "update" sim_home).
  intros s'. left. reflexivity.
Defined.




(** The listing of the simulated base directory: the stray entry [notes]
    gets a section of its own, which fails and ends the command, so the
    repository [vim.git] listed after it gets no section. *)
Lemma status_stops_before_later_repo :
  respond sim_world sim_home (ReadDir dotfilesBasedir)
    = (Ok ["core.git"; "notes"; "vim.git"], sim_home)
  /\ List.filter (fun l => HasSuffix l (":" +:+ nl))
       (printed (events (executeStatus sim_world "" sim_home)))
     = ["core:" +:+ nl; "notes:" +:+ nl]
  /\ storage_calls (events (executeStatus sim_world "" sim_home))
     = ["dotfiles/core.git"; "dotfiles/notes.git"]
  /\ res (executeStatus sim_world "" sim_home) = Err "repository not exists".
Proof. repeat split; vm_compute; reflexivity. Qed.

Lemma status_enumerates_in_listing_order_witness :
  respond sim_world sim_home (ReadDir dotfilesBasedir)
    = (Ok ["core.git"; "notes"; "vim.git"], sim_home)
  /\ status_repoNames ["core.git"; "notes"; "vim.git"] = ["core"; "notes"; "vim"]
  /\ length (status_runs sim_world ["core"; "notes"; "vim"] sim_home) = 2
  /\ storage_calls (events (executeStatus sim_world "" sim_home))
     = take 2 ["dotfiles/core.git"; "dotfiles/notes.git"; "dotfiles/vim.git"]
  /\ res (executeStatus sim_world "" sim_home) = Err "repository not exists".
Proof.
  split; [reflexivity |].
  pose proof (status_enumerates_in_listing_order sim_world sim_home sim_home
                ["core.git"; "notes"; "vim.git"] eq_refl) as H.
  cbn zeta in H. destruct H as (H1 & _ & _ & _ & H5 & _ & H7 & _).
  assert (res (status_one sim_world "notes" sim_home) = Err "repository not exists")
    as Hnotes by (vm_compute; reflexivity).
  destruct (H7 1 (status_one sim_world "notes" sim_home) "repository not exists"
              ltac:(vm_compute; reflexivity) Hnotes) as [Hlen Hres].
  change (map (fun f => TrimSuffix f ".git") ["core.git"; "notes"; "vim.git"])
    with ["core"; "notes"; "vim"] in Hlen, H5.
  rewrite Hlen in H5.
  split; [exact H1 |]. split; [exact Hlen |]. split; [exact H5 | exact Hres].
Defined.

Lemma status_prints_changed_files_witness :
  exists lines,
    printed (events (status_one sim_world "core" sim_home))
      = ("core" +:+ ":" +:+ nl) :: lines
    /\ List.filter (is_line_of "a.conf") lines = ["[M] a.conf" +:+ nl]
    /\ List.filter (is_line_of "b.conf") lines = [].
Proof.
  destruct (status_prints_changed_files sim_world "core"
              sim_home sim_home sim_home sim_home sim_home
              {| storer_fs := "dotfiles/core.git" |}
              {| repo_Storer := {| storer_fs := "dotfiles/core.git" |};
                 repo_wt := Some "./workdir" |}
              {| wt_repo :=
                   {| repo_Storer := {| storer_fs := "dotfiles/core.git" |};
                      repo_wt := Some "./workdir" |} |}
              (sim_status sim_home)
              sim_range_visits_all eq_refl eq_refl eq_refl eq_refl)
    as (lines & Hprinted & Hfile & _).
  exists lines. split; [exact Hprinted |]. split.
  - exact (Hfile "a.conf"
             {| Staging := " "%char; Worktree := "M"%char; Extra := "" |} eq_refl).
  - exact (Hfile "b.conf"
             {| Staging := " "%char; Worktree := "?"%char; Extra := "" |} eq_refl).
Defined.

Lemma list_contract_witness :
  printed (events (executeList sim_world false sim_home))
  = ["core" +:+ nl; "notes" +:+ nl; "vim" +:+ nl].
Proof.
  destruct (proj1 (proj2 (list_contract sim_world sim_home))
              ["core.git"; "notes"; "vim.git"] sim_home eq_refl) as [-> _].
  reflexivity.
Defined.

(** [os.Getwd] fails twice, [add] goes on to the staging call, and the
    error it returns is that of the staging call. *)
Lemma add_continues_after_getwd_error :
  events (executeAdd sim_world_lost "core" "workdir/.bashrc" sim_home)
  = [Printed ("Adding workdir/.bashrc to core" +:+ nl);
     Called (NewStorage "dotfiles/core.git") None;
     Called (Open {| storer_fs := "dotfiles/core.git" |} "./workdir") None;
     Called (GetWorktree {| repo_Storer := {| storer_fs := "dotfiles/core.git" |};
                            repo_wt := Some "./workdir" |}) None;
     Called Getwd (Some "getwd: file name too long");
     Called Getwd (Some "getwd: file name too long");
     Called (Add {| wt_repo :=
                      {| repo_Storer := {| storer_fs := "dotfiles/core.git" |};
                         repo_wt := Some "./workdir" |} |} "")
       (Some "file does not exist")]
  /\ res (executeAdd sim_world_lost "core" "workdir/.bashrc" sim_home)
     = Err "file does not exist"
  /\ ~ propagates_errors all_checked
        (executeAdd sim_world_lost "core" "workdir/.bashrc").
Proof.
  split; [vm_compute; reflexivity |]. split; [vm_compute; reflexivity |].
  intros [H _].
  destruct (H sim_home
              [Printed ("Adding workdir/.bashrc to core" +:+ nl);
               Called (NewStorage "dotfiles/core.git") None;
               Called (Open {| storer_fs := "dotfiles/core.git" |} "./workdir") None;
               Called (GetWorktree
                         {| repo_Storer := {| storer_fs := "dotfiles/core.git" |};
                            repo_wt := Some "./workdir" |}) None]
              Getwd "getwd: file name too long"
              [Called Getwd (Some "getwd: file name too long");
               Called (Add {| wt_repo :=
                                {| repo_Storer := {| storer_fs := "dotfiles/core.git" |};
                                   repo_wt := Some "./workdir" |} |} "")
                 (Some "file does not exist")])
    as [Hpost _]; [vm_compute; reflexivity | reflexivity | discriminate].
Qed.

(** The remote is unreachable: the commit is made, the push fails, and
    the commit is still there when [save] returns. *)
Lemma errors_abort_commands_witness :
  res (executeSave sim_world "core" "update" sim_offline) = Err "connection refused"
  /\ sim_commits (final (executeSave sim_world "core" "update" sim_offline))
     = ["update"].
Proof.
  pose proof (proj1 (proj2 (proj2 (proj2 (proj2 (proj2 (proj2
                (errors_abort_commands sim_world)))))))
                "core" "update" sim_offline
                {| storer_fs := "dotfiles/core.git" |} sim_offline
                {| repo_Storer := {| storer_fs := "dotfiles/core.git" |};
                   repo_wt := Some "./workdir" |} sim_offline
                {| wt_repo :=
                     {| repo_Storer := {| storer_fs := "dotfiles/core.git" |};
                        repo_wt := Some "./workdir" |} |} sim_offline
                "0001" (sim_commit "update" sim_offline)
                {| auth_user := "git" |} (sim_commit "update" sim_offline)
                "connection refused" (sim_commit "update" sim_offline)
                eq_refl eq_refl eq_refl) as H.
  rewrite H; [by split | discriminate | discriminate | reflexivity
              | reflexivity | reflexivity].
Defined.

(** Two stray entries: the first is tried and fails, the second is never
    tried. *)
Lemma status_skips_entry_after_failure :
  respond sim_world sim_stray (ReadDir dotfilesBasedir)
    = (Ok ["notes"; "todo"; "vim.git"], sim_stray)
  /\ HasSuffix "todo" ".git" = false
  /\ storage_calls (events (executeStatus sim_world "" sim_stray))
     = ["dotfiles/notes.git"]
  /\ printed (events (executeStatus sim_world "" sim_stray)) = ["notes:" +:+ nl]
  /\ res (executeStatus sim_world "" sim_stray) = Err "repository not exists".
Proof. repeat split; vm_compute; reflexivity. Qed.

Lemma status_enumerates_other_entries_witness :
  (HasSuffix "notes" ".git" = false
   /\ status_repoNames ["core.git"; "notes"; "vim.git"] !! 1 = Some "notes"
   /\ storage_calls (events (executeStatus sim_world "" sim_home)) !! 1
      = Some (filepath.Join [dotfilesBasedir; "notes" +:+ ".git"]))
  /\ (HasSuffix "todo" ".git" = false
      /\ status_repoNames ["notes"; "todo"; "vim.git"] !! 1 = Some "todo"
      /\ storage_calls (events (executeStatus sim_world "" sim_stray)) !! 1 = None
      /\ res (executeStatus sim_world "" sim_stray) = Err "repository not exists").
Proof.
  split.
  - split; [reflexivity |].
    destruct (status_enumerates_other_entries sim_world sim_home sim_home
                ["core.git"; "notes"; "vim.git"] 1 "notes" eq_refl eq_refl eq_refl)
      as (_ & Hname & Hopen & _).
    split; [exact Hname |]. apply Hopen.
    intros j r Hj. destruct j as [|j]; [| lia].
    intros [= <-]. vm_compute; reflexivity.
  - split; [reflexivity |].
    destruct (status_enumerates_other_entries sim_world sim_stray sim_stray
                ["notes"; "todo"; "vim.git"] 1 "todo" eq_refl eq_refl eq_refl)
      as (_ & Hname & _ & Hcut).
    split; [exact Hname |].
    apply (Hcut 0 (status_one sim_world "notes" sim_stray) "repository not exists");
      [lia | vm_compute; reflexivity | vm_compute; reflexivity].
Defined.

(** * The last element of a cleaned path *)

Module CleanFacts.
Import GoString GoStringFacts filepath FilepathFacts.

Lemma Clean_loop_done (fuel : nat) (path : string) (rooted : bool)
    (r : nat) (out : string) (dotdot : nat) :
  len path <= r -> Clean_loop fuel path rooted r out dotdot = out.
Proof.
  intros Hr. destruct fuel as [|fuel]; [done |].
  rewrite Clean_loop_turn. destruct (Nat.ltb_spec r (len path)); [lia | done].
Qed.

(** The element copy does not run past a separator. *)
Lemma Clean_copy_stops (fuel : nat) (path : string) (r : nat) (out : string)
    (j : nat) :
  r <= j -> is_sep_at j path = true -> (Clean_copy fuel path r out).1 <= j.
Proof.
  revert r out; induction fuel as [|fuel IH]; intros r out Hr Hj;
    cbn [Clean_copy]; [done |].
  destruct (byte_at r path) as [c|] eqn:Hc; [| done].
  destruct (IsPathSeparator c) eqn:Hsep; [done |].
  apply IH; [| done].
  destruct (decide (r = j)) as [-> | Hne]; [| lia].
  unfold is_sep_at in Hj. rewrite Hc in Hj. congruence.
Qed.

(** The element copy takes a whole last element. *)
Lemma Clean_copy_element (seg : string) (fuel : nat) (pre out : string) :
  string_forall (fun c => negb (IsPathSeparator c)) seg = true ->
  len seg <= fuel ->
  Clean_copy fuel (pre +:+ seg) (len pre) out = (len pre + len seg, out +:+ seg).
Proof.
  revert fuel pre out; induction seg as [|c seg IH]; intros fuel pre out Hseg Hfuel.
  - rewrite !append_empty_r, Nat.add_0_r.
    destruct fuel as [|fuel]; [done |]. cbn [Clean_copy].
    by rewrite byte_at_ge.
  - cbn in Hseg. apply andb_prop in Hseg as [Hc Hseg].
    apply negb_true_iff in Hc.
    destruct fuel as [|fuel]; [unfold len in Hfuel; cbn in Hfuel; lia |].
    cbn [Clean_copy].
    replace (byte_at (len pre) (pre +:+ String c seg)) with (Some c).
    2: { replace (len pre) with (len pre + 0) by lia.
         by rewrite byte_at_append_r. }
    rewrite Hc.
    replace (pre +:+ String c seg) with ((pre +:+ String c "") +:+ seg)
      by (by rewrite append_assoc).
    replace (S (len pre)) with (len (pre +:+ String c ""))
      by (rewrite len_append; unfold len; cbn; lia).
    rewrite IH; [| done | unfold len in *; cbn in Hfuel; lia].
    rewrite len_append, !append_assoc. f_equal.
    unfold len; cbn; lia.
Qed.

(** The main loop, started before the last element, arrives at its first
    byte with fuel left. *)
Lemma Clean_loop_reaches (pre seg : string) (rooted : bool) (fuel : nat)
    (r : nat) (out : string) (dotdot : nat) :
  is_dir_prefix pre = true ->
  seg <> "" ->
  r <= len pre ->
  len (pre +:+ seg) - r <= fuel ->
  exists fuel' out' dotdot',
    1 <= fuel'
    /\ Clean_loop fuel (pre +:+ seg) rooted r out dotdot
       = Clean_loop fuel' (pre +:+ seg) rooted (len pre) out' dotdot'.
Proof.
  intros Hpre Hseg.
  assert (1 <= len seg) as Hlen by (unfold len; destruct seg; [done | cbn; lia]).
  revert r out dotdot; induction fuel as [|fuel IH]; intros r out dotdot Hr Hfuel.
  { rewrite len_append in Hfuel. lia. }
  destruct (decide (r = len pre)) as [-> | Hne].
  { exists (S fuel), out, dotdot. split; [lia | done]. }
  assert (is_sep_at (len pre - 1) (pre +:+ seg) = true) as Hlast.
  { unfold is_dir_prefix in Hpre. apply orb_prop in Hpre as [Hp | Hp].
    - apply String.eqb_eq in Hp. subst pre. unfold len in Hr, Hne. cbn in Hr, Hne. lia.
    - apply HasSuffix_inv in Hp.
      remember (slice_to (len pre - len "/") pre) as p eqn:Heqp. clear Heqp.
      subst pre. rewrite len_append. change (len "/") with 1.
      replace (len p + 1 - 1) with (len p + 0) by lia.
      by rewrite append_assoc, is_sep_at_append_r. }
  rewrite len_append in Hfuel.
  rewrite Clean_loop_turn.
  destruct (Nat.ltb_spec r (len (pre +:+ seg))) as [_ | Hge];
    [| rewrite len_append in Hge; lia].
  cbn [negb].
  destruct (is_sep_at r (pre +:+ seg)) eqn:Hsep.
  { apply IH; [lia | rewrite len_append; lia]. }
  destruct (is_dot_at r (pre +:+ seg)
            && ((r + 1 =? len (pre +:+ seg)) || is_sep_at (r + 1) (pre +:+ seg))).
  { apply IH; [lia | rewrite len_append; lia]. }
  assert (r + 1 <= len pre - 1) as Hr1.
  { destruct (decide (r = len pre - 1)) as [-> | ?]; [congruence | lia]. }
  destruct (is_dot_at r (pre +:+ seg) && is_dot_at (r + 1) (pre +:+ seg)
            && ((r + 2 =? len (pre +:+ seg)) || is_sep_at (r + 2) (pre +:+ seg)))
    eqn:Hdd.
  { assert (r + 2 <= len pre) as Hr2.
    { destruct (decide (r + 1 = len pre - 1)) as [Heq | ?]; [| lia].
      apply andb_prop in Hdd as [[_ Hd]%andb_prop _].
      rewrite Heq in Hd. unfold is_dot_at in Hd. unfold is_sep_at in Hlast.
      destruct (byte_at (len pre - 1) (pre +:+ seg)) as [c|]; [| done].
      unfold IsPathSeparator, Separator in Hlast.
      apply Ascii.eqb_eq in Hlast, Hd. congruence. }
    destruct (dotdot <? len out); [apply IH; [lia | rewrite len_append; lia] |].
    destruct (negb rooted); apply IH; try lia; rewrite len_append; lia. }
  match goal with
  | |- context [Clean_copy ?n ?p r ?o] =>
      pose proof (Clean_copy_stops n p r o (len pre - 1) ltac:(lia) Hlast) as Hstop;
      assert (r < (Clean_copy n p r o).1) as Hadv
  end.
  { rewrite len_append.
    destruct (len pre + len seg) as [|m] eqn:Hm; [lia |].
    apply Clean_copy_advance_element; [rewrite len_append; lia | done]. }
  pose proof (len_append pre seg) as Hl.
  apply IH; lia.
Qed.

(** At its first byte, the last element is appended whole and nothing
    follows it. *)
Lemma Clean_loop_last_element (pre seg : string) (rooted : bool) (fuel : nat)
    (out : string) (dotdot : nat) :
  1 <= fuel ->
  is_element seg = true ->
  seg <> "." ->
  seg <> ".." ->
  Clean_loop fuel (pre +:+ seg) rooted (len pre) out dotdot
  = (if (rooted && negb (len out =? 1)) || (negb rooted && negb (len out =? 0))
     then out +:+ "/" else out) +:+ seg.
Proof.
  intros Hfuel [Hne Hseg]%is_element_inv Hdot Hdotdot.
  destruct fuel as [|fuel]; [lia |].
  assert (1 <= len seg) as Hlen by (unfold len; destruct seg; [done | cbn; lia]).
  rewrite Clean_loop_turn, len_append.
  destruct (Nat.ltb_spec (len pre) (len pre + len seg)) as [_ | ?]; [| lia].
  cbn [negb].
  assert (forall i, is_sep_at (len pre + i) (pre +:+ seg) = false) as Hnosep.
  { intros i. rewrite is_sep_at_append_r. by apply is_sep_at_no_separator. }
  assert (forall i, is_dot_at (len pre + i) (pre +:+ seg) = is_dot_at i seg) as Hdots.
  { intros i. unfold is_dot_at. by rewrite byte_at_append_r. }
  replace (is_sep_at (len pre) (pre +:+ seg)) with false
    by (by rewrite <- (Hnosep 0), Nat.add_0_r).
  replace (is_dot_at (len pre) (pre +:+ seg)) with (is_dot_at 0 seg)
    by (by rewrite <- (Hdots 0), Nat.add_0_r).
  rewrite !Hnosep, !Hdots, !orb_false_r.
  assert (is_dot_at 0 seg && (len pre + 1 =? len pre + len seg) = false) as ->.
  { destruct seg as [|c [|d rest]]; try done.
    - unfold is_dot_at. cbn. destruct (Ascii.eqb_spec c "."); [by subst c | done].
    - apply andb_false_intro2. apply Nat.eqb_neq. unfold len. cbn. lia. }
  assert (is_dot_at 0 seg && is_dot_at 1 seg
          && (len pre + 2 =? len pre + len seg) = false) as ->.
  { destruct seg as [|c [|d [|e rest]]]; try done.
    - apply andb_false_intro2. apply Nat.eqb_neq. unfold len. cbn. lia.
    - unfold is_dot_at. cbn.
      destruct (Ascii.eqb_spec c "."); [subst c | done].
      destruct (Ascii.eqb_spec d "."); [by subst d | done].
    - apply andb_false_intro2. apply Nat.eqb_neq. unfold len. cbn. lia. }
  rewrite <- len_append.
  rewrite Clean_copy_element; [| done | rewrite len_append; lia].
  cbn [fst snd]. apply Clean_loop_done. rewrite len_append. lia.
Qed.

(** Cleaning keeps the last element of a path, when it is a name and not
    [.] or [..]. *)
Lemma Clean_keeps_last_element (pre seg : string) :
  is_dir_prefix pre = true ->
  is_element seg = true ->
  seg <> "." ->
  seg <> ".." ->
  exists dir,
    Clean (pre +:+ seg) = dir +:+ seg
    /\ (is_sep_at 0 (pre +:+ seg) = false -> is_dir_prefix dir = true).
Proof.
  intros Hpre Hseg Hdot Hdotdot.
  destruct (is_element_inv seg Hseg) as [Hne Hnosep].
  assert (1 <= len seg) as Hlen by (unfold len; destruct seg; [done | cbn; lia]).
  unfold Clean.
  destruct (String.eqb_spec (pre +:+ seg) "") as [Heq | _].
  { apply (f_equal len) in Heq. rewrite len_append in Heq. cbn in Heq. lia. }
  assert (forall r out dotdot,
            r <= len pre ->
            exists out',
              Clean_loop (len (pre +:+ seg)) (pre +:+ seg)
                (is_sep_at 0 (pre +:+ seg)) r out dotdot
              = (if (is_sep_at 0 (pre +:+ seg) && negb (len out' =? 1))
                    || (negb (is_sep_at 0 (pre +:+ seg)) && negb (len out' =? 0))
                 then out' +:+ "/" else out') +:+ seg) as Hloop.
  { intros r out dotdot Hr.
    destruct (Clean_loop_reaches pre seg (is_sep_at 0 (pre +:+ seg))
                (len (pre +:+ seg)) r out dotdot Hpre Hne Hr ltac:(lia))
      as (fuel' & out' & dotdot' & Hfuel' & ->).
    exists out'. by apply Clean_loop_last_element. }
  destruct (is_sep_at 0 (pre +:+ seg)) eqn:Hrooted.
  - assert (1 <= len pre) as Hp1.
    { destruct pre as [|c pre]; [| unfold len; cbn; lia].
      rewrite append_nil in Hrooted. by rewrite is_sep_at_no_separator in Hrooted. }
    destruct (Hloop 1 "/" 1 Hp1) as [out' ->].
    eexists. split; [| intros; discriminate].
    match goal with
    | |- (if len ?x =? 0 then _ else _) = _ =>
        destruct (Nat.eqb_spec (len x) 0) as [H0 | _]; [| reflexivity]
    end.
    rewrite len_append in H0. lia.
  - destruct (Hloop 0 "" 0 ltac:(lia)) as [out' ->].
    cbn [andb orb negb].
    eexists. split.
    + match goal with
      | |- (if len ?x =? 0 then _ else _) = _ =>
          destruct (Nat.eqb_spec (len x) 0) as [H0 | _]; [| reflexivity]
      end.
      rewrite len_append in H0. lia.
    + intros _. unfold is_dir_prefix.
      destruct (Nat.eqb_spec (len out') 0) as [H0 | _]; cbn [negb].
      * destruct out'; [done | unfold len in H0; cbn in H0; lia].
      * rewrite HasSuffix_append. apply orb_true_r.
Qed.

Lemma string_forall_append (P : ascii -> bool) (a b : string) :
  string_forall P (a +:+ b) = string_forall P a && string_forall P b.
Proof.
  induction a as [|c a IH]; [done |].
  rewrite append_cons. cbn. by rewrite IH, andb_assoc.
Qed.

Lemma slice_from_append_r (i : nat) (a b : string) :
  slice_from (len a + i) (a +:+ b) = slice_from i b.
Proof. unfold len. induction a as [|c a IH]; [done |]. by rewrite append_cons. Qed.

(** Every string is a directory prefix followed by bytes without a
    separator. *)
Lemma last_element_split (name : string) :
  exists pre seg,
    name = pre +:+ seg
    /\ is_dir_prefix pre = true
    /\ string_forall (fun c => negb (IsPathSeparator c)) seg = true.
Proof.
  induction name as [|c name (pre & seg & -> & Hpre & Hseg)].
  { by exists "", "". }
  destruct (String.eqb_spec pre "") as [-> | Hne].
  - rewrite append_nil. destruct (IsPathSeparator c) eqn:Hc.
    + exists (String c ""), seg. split; [done |]. split; [| done].
      unfold IsPathSeparator, Separator in Hc. apply Ascii.eqb_eq in Hc.
      by subst c.
    + exists "", (String c seg). split; [done |]. split; [done |].
      cbn. by rewrite Hc.
  - exists (String c pre), seg. split; [by rewrite append_cons |].
    split; [by apply is_dir_prefix_cons | done].
Qed.

(** A suffix without a separator, found after a directory prefix, lies in
    what follows that prefix. *)
Lemma HasSuffix_last_element (dir seg x : string) :
  is_dir_prefix dir = true ->
  string_forall (fun c => negb (IsPathSeparator c)) x = true ->
  HasSuffix (dir +:+ seg) x = true ->
  HasSuffix seg x = true.
Proof.
  intros Hdir Hx H. unfold is_dir_prefix in Hdir.
  apply orb_prop in Hdir as [Hd | Hd].
  { apply String.eqb_eq in Hd. by subst dir. }
  apply HasSuffix_inv in Hd.
  remember (slice_to (len dir - len "/") dir) as d eqn:Heqd. clear Heqd.
  subst dir. unfold HasSuffix in *.
  apply andb_prop in H as [Hle Heq].
  apply Nat.leb_le in Hle. apply String.eqb_eq in Heq.
  rewrite !len_append in Hle, Heq. change (len "/") with 1 in Hle, Heq.
  destruct (Nat.le_gt_cases (len x) (len seg)) as [Hfit | Hover].
  - apply andb_true_intro. split; [by apply Nat.leb_le |].
    apply String.eqb_eq.
    replace (len d + 1 + len seg - len x)
      with (len (d +:+ "/") + (len seg - len x)) in Heq
      by (rewrite len_append; change (len "/") with 1; lia).
    by rewrite slice_from_append_r in Heq.
  - exfalso.
    assert (byte_at (len d - (len d + 1 + len seg - len x)) x = Some "/"%char)
      as Hbyte.
    { rewrite <- Heq at 2. rewrite byte_at_slice_from.
      replace (len d + 1 + len seg - len x
               + (len d - (len d + 1 + len seg - len x)))
        with (len d + 0) by lia.
      by rewrite append_assoc, byte_at_append_r. }
    by pose proof (string_forall_byte_at _ _ _ _ Hx Hbyte).
Qed.

(** A joined path whose last argument ends in [.git] ends in [.git]. *)
Lemma Join_git_suffix (dir name : string) :
  dir <> "" ->
  HasSuffix (filepath.Join [dir; name +:+ ".git"]) ".git" = true.
Proof.
  intros Hdir. cbn [filepath.Join GoString.Join].
  destruct (String.eqb_spec dir "") as [? | _]; [done |].
  destruct (last_element_split name) as (pre & seg & -> & Hpre & Hseg).
  replace (dir +:+ String Separator "" +:+ (pre +:+ seg) +:+ ".git")
    with ((dir +:+ "/" +:+ pre) +:+ (seg +:+ ".git"))
    by (by rewrite !append_assoc).
  assert (is_dir_prefix (dir +:+ "/" +:+ pre) = true) as Hdp.
  { unfold is_dir_prefix in *. apply orb_true_iff. right.
    apply orb_prop in Hpre as [Hp | Hp].
    - apply String.eqb_eq in Hp. subst pre. rewrite append_empty_r.
      apply HasSuffix_append.
    - apply HasSuffix_inv in Hp. rewrite Hp, <- !append_assoc.
      apply HasSuffix_append. }
  assert (4 <= len (seg +:+ ".git")) as Hlen
    by (rewrite len_append; change (len ".git") with 4; lia).
  destruct (Clean_keeps_last_element _ (seg +:+ ".git") Hdp)
    as (out & -> & _).
  - unfold is_element. apply andb_true_intro. split.
    + apply negb_true_iff, String.eqb_neq. intros Heq.
      rewrite Heq in Hlen. cbn in Hlen. lia.
    + rewrite string_forall_append, Hseg. done.
  - intros Heq. rewrite Heq in Hlen. cbn in Hlen. lia.
  - intros Heq. rewrite Heq in Hlen. cbn in Hlen. lia.
  - rewrite <- !append_assoc. apply HasSuffix_append.
Qed.

(** Joined to the base directory, a name that does not end in [.git]
    gives a path that does not end in [.git]. *)
Lemma Join_element_suffix (seg : string) :
  is_element seg = true ->
  seg <> "." ->
  seg <> ".." ->
  HasSuffix seg ".git" = false ->
  HasSuffix (filepath.Join [dotfilesBasedir; seg]) ".git" = false.
Proof.
  intros Hseg Hdot Hdotdot Hgit. unfold dotfilesBasedir.
  cbn [filepath.Join GoString.Join].
  change (String.eqb "./dotfiles" "") with false. cbv iota.
  replace ("./dotfiles" +:+ String Separator "" +:+ seg)
    with ("./dotfiles/" +:+ seg) by (by rewrite !append_cons, append_nil).
  destruct (Clean_keeps_last_element "./dotfiles/" seg eq_refl Hseg Hdot Hdotdot)
    as (out & -> & Hout).
  destruct (HasSuffix (out +:+ seg) ".git") eqn:H; [| done].
  rewrite <- Hgit. symmetry.
  apply (HasSuffix_last_element out seg ".git"); [| done | done].
  apply Hout. by rewrite !append_cons.
Qed.

End CleanFacts.

(** * Further properties of the commands *)

(** ** What a computation calls *)

Section CallFacts.
Context {St : Type} (W : World St).

Lemma bind_ret_r (m : M St unit) (s : St) : bind m (fun _ => ret tt) s = m s.
Proof.
  unfold bind, ret. destruct (m s) as [[[]|e] s' tr]; cbn; [| done].
  by rewrite app_nil_r.
Qed.

Lemma only_calls_bind {A B : Type} (allowed : Op -> bool) (m : M St A)
    (k : A -> M St B) :
  only_calls allowed m -> (forall a, only_calls allowed (k a)) ->
  only_calls allowed (bind m k).
Proof.
  intros Hm Hk s. specialize (Hm s).
  destruct (res (m s)) as [a|e] eqn:Hres.
  - rewrite (bind_ok m k s a Hres). cbn [events]. unfold called in *.
    rewrite collect_app. apply Forall_app. split; [done | apply Hk].
  - by rewrite (bind_err m k s e Hres).
Qed.

Lemma only_calls_ret {A : Type} (allowed : Op -> bool) (a : A) :
  only_calls (St := St) allowed (ret a).
Proof. intros s. constructor. Qed.

Lemma only_calls_fail {A : Type} (allowed : Op -> bool) (e : error) :
  only_calls (St := St) (A := A) allowed (fail e).
Proof. intros s. constructor. Qed.

Lemma only_calls_print (allowed : Op -> bool) (text : string) :
  only_calls (St := St) allowed (print text).
Proof. intros s. constructor. Qed.

Lemma only_calls_Getenv (allowed : Op -> bool) (key : string) :
  only_calls allowed (Getenv W key).
Proof. intros s. constructor. Qed.

Lemma only_calls_range_map (allowed : Op -> bool) (m : Status) :
  only_calls allowed (range_map W m).
Proof. intros s. constructor. Qed.

Lemma only_calls_call (allowed : Op -> bool) (o : Op) :
  allowed o = true -> only_calls allowed (call W o).
Proof.
  intros Ho s. rewrite call_run. cbn [events called collect].
  by repeat constructor.
Qed.

Lemma only_calls_forM_ {A : Type} (allowed : Op -> bool) (l : list A)
    (body : A -> M St unit) :
  (forall x, only_calls allowed (body x)) -> only_calls allowed (forM_ l body).
Proof.
  intros Hbody. induction l as [|x l IH]; cbn [forM_].
  - apply only_calls_ret.
  - by apply only_calls_bind.
Qed.

Lemma only_calls_Abs (allowed : Op -> bool) (path : string) :
  allowed Getwd = true -> only_calls allowed (Abs W path).
Proof.
  intros Hwd. unfold Abs. destruct (filepath.IsAbs path); [apply only_calls_ret |].
  intros s. rewrite bind_perform.
  destruct (respond W s Getwd).1; cbn [events ret called collect];
    by repeat constructor.
Qed.

End CallFacts.

Ltac only_calls_step :=
  first
    [ apply only_calls_call; first [reflexivity | apply String.eqb_refl]
    | apply only_calls_ret
    | apply only_calls_fail
    | apply only_calls_print
    | apply only_calls_Getenv
    | apply only_calls_range_map
    | apply only_calls_Abs; reflexivity
    | assumption
    | apply only_calls_bind; [only_calls_step | intros ?; only_calls_step] ].

(** Evaluate the comparisons of command names in the goal. *)
Ltac eval_selected :=
  repeat match goal with
         | |- context [String.eqb ?a ?b] =>
             let v := eval vm_compute in (String.eqb a b) in
             change (String.eqb a b) with v
         end;
  cbv iota.

Section Coverage.
Context {St : Type} (W : World St).

Lemma only_calls_openWorkingRepo (allowed : Op -> bool) (repoName : string) :
  (forall fs, allowed (NewStorage fs) = true
              \/ fs <> filepath.Join [dotfilesBasedir; repoName +:+ ".git"]) ->
  (forall st, allowed (Open st dotfilesWorkdir) = true) ->
  only_calls allowed (openWorkingRepo W repoName).
Proof.
  intros Hns Hopen. unfold openWorkingRepo.
  apply only_calls_bind.
  - apply only_calls_call. by destruct (Hns (filepath.Join [dotfilesBasedir; repoName +:+ ".git"])).
  - intros st. apply only_calls_bind; [by apply only_calls_call |].
    intros repo. apply only_calls_ret.
Qed.

Lemma only_calls_getAuthMethod (allowed : Op -> bool) :
  allowed (NewSSHAgentAuth "git") = true -> only_calls allowed (getAuthMethod W).
Proof.
  intros H. unfold getAuthMethod.
  apply only_calls_bind; [by apply only_calls_call | intros ?; apply only_calls_ret].
Qed.

Lemma only_calls_getAuthor (allowed : Op -> bool) : only_calls allowed (getAuthor W).
Proof.
  unfold getAuthor.
  apply only_calls_bind; [apply only_calls_Getenv | intros name].
  apply only_calls_bind; [apply only_calls_Getenv | intros email].
  destruct (_ || _); [apply only_calls_fail | apply only_calls_ret].
Qed.

Lemma only_calls_status_lines (allowed : Op -> bool)
    (entries : list (string * FileStatus)) :
  only_calls (St := St) allowed
    (forM_ entries (fun '(f, s) =>
       if status_shown (Worktree s) then print (status_line f s) else ret tt)).
Proof.
  apply only_calls_forM_. intros [f fs].
  destruct (status_shown _); [apply only_calls_print | apply only_calls_ret].
Qed.

Lemma only_calls_status_one (allowed : Op -> bool) (repoName : string) :
  (forall fs, allowed (NewStorage fs) = true
              \/ fs <> filepath.Join [dotfilesBasedir; repoName +:+ ".git"]) ->
  (forall st, allowed (Open st dotfilesWorkdir) = true) ->
  (forall r, allowed (GetWorktree r) = true) ->
  (forall w, allowed (WtStatus w) = true) ->
  only_calls allowed (status_one W repoName).
Proof.
  intros Hns Hopen Hwt Hst. unfold status_one.
  apply only_calls_bind; [apply only_calls_print | intros _].
  apply only_calls_bind; [by apply only_calls_openWorkingRepo | intros repo].
  apply only_calls_bind; [by apply only_calls_call | intros wt].
  apply only_calls_bind; [by apply only_calls_call | intros st].
  apply only_calls_bind; [apply only_calls_range_map | intros entries].
  apply only_calls_status_lines.
Qed.

(** [list] and [status] only look: [list] calls nothing but the directory
    listing, and [status], with or without a repo name, calls nothing but
    the listing, the three steps that open a repository and the status
    query.  Neither stages, commits, pushes, pulls, clones or checks
    out. *)
Theorem list_and_status_are_read_only :
  (forall verbose, only_calls is_readdir (executeList W verbose))
  /\ (forall repoName, only_calls is_read_op (executeStatus W repoName)).
Proof.
  split.
  - intros [|]; unfold executeList; [apply only_calls_fail |].
    apply only_calls_bind; [by apply only_calls_call | intros files].
    apply only_calls_forM_. intros name. apply only_calls_print.
  - intros repoName. unfold executeStatus. apply only_calls_bind.
    + destruct (String.eqb repoName ""); only_calls_step.
    + intros names. apply only_calls_forM_. intros name.
      apply only_calls_status_one; intros; auto.
Qed.

(** Each command that changes something keeps to its own operations:
    besides opening the repository, looking up the process directory and
    asking the SSH agent, [add] only stages, [pull] only pulls, [save]
    only commits and pushes, and [init] only clones and checks out. *)
Theorem commands_keep_to_their_operations :
  (forall repoName addfile,
     only_calls (fun o => is_setup_op o || is_add o) (executeAdd W repoName addfile))
  /\ (forall repoName,
        only_calls (fun o => is_setup_op o || is_pull o) (executePull W repoName))
  /\ (forall repoName msg,
        only_calls (fun o => is_setup_op o || is_commit o || is_push o)
          (executeSave W repoName msg))
  /\ (forall repoUrl,
        only_calls (fun o => is_setup_op o || is_clone o || is_checkout o)
          (executeInit W repoUrl)).
Proof.
  split; [| split; [| split]].
  - intros repoName addfile. unfold executeAdd.
    pose proof (only_calls_openWorkingRepo (fun o => is_setup_op o || is_add o)
                  repoName ltac:(by left) ltac:(done)).
    only_calls_step.
  - intros repoName. unfold executePull.
    pose proof (only_calls_openWorkingRepo (fun o => is_setup_op o || is_pull o)
                  repoName ltac:(by left) ltac:(done)).
    pose proof (only_calls_getAuthMethod (fun o => is_setup_op o || is_pull o) eq_refl).
    only_calls_step.
  - intros repoName msg. unfold executeSave.
    pose proof (only_calls_openWorkingRepo
                  (fun o => is_setup_op o || is_commit o || is_push o)
                  repoName ltac:(by left) ltac:(done)).
    pose proof (only_calls_getAuthMethod
                  (fun o => is_setup_op o || is_commit o || is_push o) eq_refl).
    pose proof (only_calls_getAuthor
                  (fun o => is_setup_op o || is_commit o || is_push o)).
    only_calls_step.
  - intros repoUrl. unfold executeInit, baseName.
    pose proof (only_calls_getAuthMethod
                  (fun o => is_setup_op o || is_clone o || is_checkout o) eq_refl).
    only_calls_step.
Qed.

(** All commands work on one shared working directory and one SSH user:
    whatever the arguments, a working tree is only ever opened on
    [./workdir] and the agent only ever asked for [git]; and [add],
    [pull] and [save] open no storage but the one derived from their repo
    name. *)
Theorem commands_share_one_workdir :
  (forall repoUrl, only_calls uses_shared_workdir (executeInit W repoUrl))
  /\ (forall verbose, only_calls uses_shared_workdir (executeList W verbose))
  /\ (forall repoName, only_calls uses_shared_workdir (executeStatus W repoName))
  /\ (forall repoName addfile,
        only_calls (fun o => uses_shared_workdir o && uses_repo_storage repoName o)
          (executeAdd W repoName addfile))
  /\ (forall repoName msg,
        only_calls (fun o => uses_shared_workdir o && uses_repo_storage repoName o)
          (executeSave W repoName msg))
  /\ (forall repoName,
        only_calls (fun o => uses_shared_workdir o && uses_repo_storage repoName o)
          (executePull W repoName)).
Proof.
  assert (forall repoName,
            only_calls (fun o => uses_shared_workdir o && uses_repo_storage repoName o)
              (openWorkingRepo W repoName)) as Hopen.
  { intros repoName. apply only_calls_openWorkingRepo.
    - intros fs. destruct (String.eqb_spec fs
        (filepath.Join [dotfilesBasedir; repoName +:+ ".git"])) as [-> | Hne];
        [left | by right].
      cbn [uses_shared_workdir uses_repo_storage andb]. apply String.eqb_refl.
    - done. }
  assert (forall repoName,
            only_calls (fun o => uses_shared_workdir o && uses_repo_storage repoName o)
              (getAuthMethod W)) as Hauth.
  { intros repoName. by apply only_calls_getAuthMethod. }
  split; [| split; [| split; [| split; [| split]]]].
  - intros repoUrl. unfold executeInit, baseName.
    pose proof (only_calls_getAuthMethod uses_shared_workdir eq_refl).
    only_calls_step.
  - intros [|]; unfold executeList; [apply only_calls_fail |].
    apply only_calls_bind; [by apply only_calls_call | intros files].
    apply only_calls_forM_. intros name. apply only_calls_print.
  - intros repoName. unfold executeStatus. apply only_calls_bind.
    + destruct (String.eqb repoName ""); only_calls_step.
    + intros names. apply only_calls_forM_. intros name.
      apply only_calls_status_one; intros; auto.
  - intros repoName addfile. unfold executeAdd.
    pose proof (Hopen repoName). only_calls_step.
  - intros repoName msg. unfold executeSave.
    pose proof (Hopen repoName). pose proof (Hauth repoName).
    pose proof (only_calls_getAuthor
                  (fun o => uses_shared_workdir o && uses_repo_storage repoName o)).
    only_calls_step.
  - intros repoName. unfold executePull.
    pose proof (Hopen repoName). pose proof (Hauth repoName).
    only_calls_step.
Qed.

(** *** [add] always stages a relative path *)

Lemma no_double_separator_slice_from (i : nat) (a : string) :
  no_double_separator a -> no_double_separator (slice_from i a).
Proof.
  intros Ha j. unfold filepath.is_sep_at.
  rewrite !GoStringFacts.byte_at_slice_from.
  replace (i + S j) with (S (i + j)) by lia. apply Ha.
Qed.

Lemma TrimPrefix_is_slice (a b : string) :
  exists i, TrimPrefix a b = slice_from i a.
Proof.
  unfold TrimPrefix. destruct (HasPrefix a b).
  - by exists (len b).
  - exists 0. by destruct a.
Qed.

Lemma no_leading_separator_after_trim (x : string) :
  no_double_separator x -> HasPrefix (TrimPrefix x "/") "/" = false.
Proof.
  intros Hx. unfold TrimPrefix. destruct (HasPrefix x "/") eqn:H; [| done].
  rewrite FilepathFacts.HasPrefix_separator in *.
  unfold filepath.is_sep_at at 1. rewrite GoStringFacts.byte_at_slice_from.
  change (len "/" + 0) with 1. by apply Hx.
Qed.

(** Whatever [os.Getwd] answers, [filepath.Abs] hands back the empty
    string or a cleaned path. *)
Lemma bind_Abs_any {B : Type} (path : string)
    (k : string * option error -> M St B) (s : St) :
  exists p err s' pre,
    bind (Abs W path) k s =
    {| res := res (k (p, err) s');
       final := final (k (p, err) s');
       events := pre ++ events (k (p, err) s') |}
    /\ add_calls pre = []
    /\ no_double_separator p.
Proof.
  unfold Abs. destruct (filepath.IsAbs path).
  - exists (filepath.Clean path), None, s, []. split; [| split; [done |]].
    + rewrite bind_ret_l. cbn [app]. by rewrite run_eta.
    + apply FilepathFacts.Clean_no_double_separator.
  - rewrite bind_assoc, bind_perform.
    destruct (respond W s Getwd) as [[wd|e] s'] eqn:E; cbn [fst snd result_err];
      rewrite bind_ret_l.
    + exists (filepath.Join [wd; path]), None, s', [Called Getwd None].
      split; [done |]. split; [done |].
      apply FilepathFacts.Join_no_double_separator.
    + exists "", (Some e), s', [Called Getwd (Some e)].
      split; [done |]. split; [done |]. by intros i.
Qed.

(** In every world and for every argument, the path [add] hands to the
    staging call does not start with a separator: the staging call always
    gets a path relative to the working tree, also for a file outside the
    working directory and also when [os.Getwd] fails. *)
Theorem add_always_stages_relative_path (repoName addfile : string) (s : St) :
  Forall (fun c => HasPrefix c.1 "/" = false)
    (add_calls (events (executeAdd W repoName addfile s))).
Proof.
  unfold executeAdd, openWorkingRepo. flatten_run.
  next_call W; [flatten_run | by repeat constructor].
  next_call W; [flatten_run | by repeat constructor].
  next_call W; [flatten_run | by repeat constructor].
  match goal with
  | |- context [bind (Abs W addfile) ?k ?s] =>
      destruct (bind_Abs_any addfile k s)
        as (absSrc & e1 & s3 & pre1 & -> & Hpre1 & Hsrc)
  end.
  cbn [res final events fst].
  match goal with
  | |- context [bind (Abs W dotfilesWorkdir) ?k ?s] =>
      destruct (bind_Abs_any dotfilesWorkdir k s)
        as (absDst & e2 & s4 & pre2 & -> & Hpre2 & _)
  end.
  cbn [res final events fst].
  unfold add_calls in *. cbn [collect].
  rewrite !collect_app, Hpre1, Hpre2. cbn [app].
  assert (HasPrefix (TrimPrefix (TrimPrefix absSrc absDst)
                       (String filepath.Separator "")) "/" = false) as Hrel.
  { apply no_leading_separator_after_trim.
    destruct (TrimPrefix_is_slice absSrc absDst) as [i ->].
    by apply no_double_separator_slice_from. }
  next_call W; flatten_run; cbn [collect]; by repeat constructor.
Qed.

(** *** [main] *)

(** The exit status and what [main] prints: for each of the six commands
    of the switch, [main] runs the command function on that command's own
    arguments; it exits with 0 and adds nothing when the command returns
    no error, and otherwise prints the error as a last line and exits
    with 1.  Any other selection does nothing and exits with 0. *)
Theorem main_exit_status (a : Args) (s : St) :
  main W "init" a s = main_outcome (executeInit W (initRepo a) s)
  /\ main W "list" a s = main_outcome (executeList W (listVerbose a) s)
  /\ main W "status" a s = main_outcome (executeStatus W (statusRepo a) s)
  /\ main W "add" a s = main_outcome (executeAdd W (addRepo a) (addFile a) s)
  /\ main W "save" a s = main_outcome (executeSave W (saveRepo a) (saveMsg a) s)
  /\ main W "pull" a s = main_outcome (executePull W (pullRepo a) s)
  /\ (forall selected,
        ~ In selected dispatched ->
        main W selected a s = {| res := Ok 0; final := s; events := [] |}).
Proof.
  repeat match goal with
         | |- _ /\ _ => split
         end.
  1-6: unfold main, main_outcome; eval_selected;
       match goal with
       | |- context [res ?r] => by destruct (res r)
       end.
  intros selected Hnot. unfold main.
  assert (forall name, In name dispatched -> String.eqb selected name = false) as Hne.
  { intros name Hin. apply String.eqb_neq. by intros ->. }
  rewrite !Hne by (cbn; tauto). done.
Qed.

(** *** [status] on one repo and on an unreadable or empty base directory *)

(** With a repo name, [status] is one section, that of the name: the base
    directory is not read and no other storage is opened. *)
Theorem status_of_named_repo (repoName : string) (s : St) :
  repoName <> "" ->
  executeStatus W repoName s = status_one W repoName s
  /\ Forall (fun o => is_readdir o = false /\ uses_repo_storage repoName o = true)
       (called (events (executeStatus W repoName s))).
Proof.
  intros Hne. apply String.eqb_neq in Hne.
  assert (executeStatus W repoName s = status_one W repoName s) as ->.
  { unfold executeStatus. rewrite Hne, bind_ret_l. cbn [app forM_].
    apply bind_ret_r. }
  split; [done |].
  assert (only_calls (fun o => negb (is_readdir o) && uses_repo_storage repoName o)
            (status_one W repoName)) as H.
  { apply only_calls_status_one; try done.
    intros fs. destruct (String.eqb_spec fs
      (filepath.Join [dotfilesBasedir; repoName +:+ ".git"])) as [-> | Hfs];
      [left | by right].
    cbn [is_readdir negb uses_repo_storage andb]. apply String.eqb_refl. }
  eapply Forall_impl; [apply H |].
  intros o [Ho1 Ho2]%andb_prop. split; [| done]. by apply negb_true_iff.
Qed.

(** Without a repo name: if the base directory cannot be read, [status]
    returns that error, prints nothing and opens nothing; if it is empty,
    [status] succeeds, prints nothing and opens nothing. *)
Theorem status_basedir_edge_cases (s s' : St) :
  (forall e,
     respond W s (ReadDir dotfilesBasedir) = (Err e, s') ->
     executeStatus W "" s =
       {| res := Err e; final := s';
          events := [Called (ReadDir dotfilesBasedir) (Some e)] |})
  /\ (respond W s (ReadDir dotfilesBasedir) = (Ok [], s') ->
      executeStatus W "" s =
        {| res := Ok tt; final := s';
           events := [Called (ReadDir dotfilesBasedir) None] |}).
Proof.
  split.
  - intros e E. unfold executeStatus. cbn [String.eqb]. flatten_run.
    by rewrite (bind_call_err W _ _ _ _ _ E).
  - intros E. unfold executeStatus. cbn [String.eqb]. flatten_run.
    by rewrite (bind_call_ok W _ _ _ _ _ E), bind_ret_l.
Qed.

(** *** The names [list] prints and the names [status] uses *)

Lemma is_dot_at_append_r (i : nat) (a b : string) :
  filepath.is_dot_at (len a + i) (a +:+ b) = filepath.is_dot_at i b.
Proof. unfold filepath.is_dot_at. by rewrite GoStringFacts.byte_at_append_r. Qed.

Lemma Ext_scan_git (stem : string) (k : nat) :
  k < 4 ->
  filepath.Ext_scan (stem +:+ ".git") (len stem + S k) = ".git".
Proof.
  induction k as [|k IH]; intros Hk.
  - rewrite Nat.add_succ_r. cbn [filepath.Ext_scan].
    rewrite FilepathFacts.is_sep_at_append_r, is_dot_at_append_r.
    change (filepath.is_sep_at 0 ".git") with false.
    change (filepath.is_dot_at 0 ".git") with true.
    cbv iota. rewrite Nat.add_0_r. apply GoStringFacts.slice_from_append.
  - rewrite Nat.add_succ_r. cbn [filepath.Ext_scan].
    rewrite FilepathFacts.is_sep_at_append_r, is_dot_at_append_r.
    assert (filepath.is_sep_at (S k) ".git" = false
            /\ filepath.is_dot_at (S k) ".git" = false) as [-> ->].
    { destruct k as [|[|[|k]]]; try done; lia. }
    apply IH. lia.
Qed.

Lemma Ext_git (stem : string) : filepath.Ext (stem +:+ ".git") = ".git".
Proof.
  unfold filepath.Ext. rewrite GoStringFacts.len_append.
  change (len ".git") with 4. apply (Ext_scan_git stem 3). lia.
Qed.

(** For an entry [stem.git] of the base directory, [list] prints [stem]
    and [status] uses [stem], whatever [stem] is; in general the two
    names of an entry are the same exactly when the entry ends in [.git]
    or has no extension, so an entry with another extension is listed
    under a name that [status] does not use. *)
Theorem list_and_status_names (entry : string) :
  (forall stem,
     entry = stem +:+ ".git" -> list_name entry = stem /\ status_name entry = stem)
  /\ (list_name entry = status_name entry
      <-> HasSuffix entry ".git" = true \/ filepath.Ext entry = "").
Proof.
  assert (forall stem, list_name (stem +:+ ".git") = stem) as Hlist.
  { intros stem. unfold list_name. rewrite Ext_git.
    apply GoStringFacts.TrimSuffix_append. }
  assert (forall stem, status_name (stem +:+ ".git") = stem) as Hstatus.
  { intros stem. apply GoStringFacts.TrimSuffix_append. }
  split; [by intros stem -> |].
  destruct (HasSuffix entry ".git") eqn:Hgit.
  - split; [by left |]. intros _.
    apply GoStringFacts.HasSuffix_inv in Hgit. rewrite Hgit.
    by rewrite Hlist, Hstatus.
  - unfold status_name. rewrite (GoStringFacts.TrimSuffix_no _ _ Hgit).
    unfold list_name. split.
    + intros Heq. right.
      pose proof (FilepathFacts.TrimSuffix_Ext entry) as Hjoin.
      rewrite Heq in Hjoin. apply (f_equal len) in Hjoin.
      rewrite GoStringFacts.len_append in Hjoin.
      destruct (filepath.Ext entry); [done |]. unfold len in Hjoin; cbn in Hjoin. lia.
    + intros [? | ->]; [done |].
      unfold TrimSuffix. rewrite GoStringFacts.HasSuffix_empty.
      change (len "") with 0. rewrite Nat.sub_0_r.
      by apply GoStringFacts.slice_to_all.
Qed.

(** *** [init], then the other commands *)

Lemma storage_calls_openWorkingRepo (repoName : string) (s : St) :
  storage_calls (events (openWorkingRepo W repoName s))
  = [filepath.Join [dotfilesBasedir; repoName +:+ ".git"]].
Proof.
  unfold openWorkingRepo. flatten_run.
  next_call W; [flatten_run | done].
  next_call W; flatten_run; done.
Qed.

Lemma clone_calls_executeInit (repoUrl : string) (s : St) :
  clone_calls (events (executeInit W repoUrl s))
  = match (respond W s (NewSSHAgentAuth "git")).1 with
    | Ok _ =>
        [(filepath.Join [dotfilesBasedir; filepath.Base repoUrl], true, repoUrl)]
    | Err _ => []
    end.
Proof.
  unfold executeInit, baseName, getAuthMethod. flatten_run.
  unfold clone_calls. cbn [collect].
  next_call W; [flatten_run | done]. cbn [fst collect].
  next_call W; [flatten_run | done]. cbn [collect].
  next_call W; [flatten_run | done]. cbn [collect].
  next_call W; [flatten_run | done]. cbn [collect].
  next_call W; flatten_run; done.
Qed.

(** A repository initialised from a URL whose last element is [stem.git]
    is the one the other commands open under the name [stem]: the path
    [init] clones to is the storage path [openWorkingRepo] derives from
    [stem]. *)
Theorem init_clone_is_opened_by_stem (pre stem slashes : string) (s s' : St) :
  is_dir_prefix pre = true ->
  is_element (stem +:+ ".git") = true ->
  all_separators slashes = true ->
  Forall (fun c => storage_calls (events (openWorkingRepo W stem s')) = [c.1.1])
    (clone_calls (events (executeInit W (pre +:+ (stem +:+ ".git") +:+ slashes) s))).
Proof.
  intros Hpre Helem Hsl.
  rewrite clone_calls_executeInit.
  rewrite (FilepathFacts.Base_element pre (stem +:+ ".git") slashes Hpre Helem Hsl).
  rewrite storage_calls_openWorkingRepo.
  destruct (respond W s (NewSSHAgentAuth "git")).1; [| by constructor].
  constructor; [| by constructor]. cbn [fst]. reflexivity.
Qed.

(** [init] checks out at most once, always with [Force], and only after
    the bare clone of the URL succeeded; it succeeds exactly when that
    checkout was made and succeeded. *)
Theorem init_checks_out_after_clone (repoUrl : string) (s : St) :
  (res (executeInit W repoUrl s) = Ok tt
   <-> checkout_calls (events (executeInit W repoUrl s)) = [(true, None)])
  /\ (checkout_calls (events (executeInit W repoUrl s)) = []
      \/ exists err,
           checkout_calls (events (executeInit W repoUrl s)) = [(true, err)])
  /\ (checkout_calls (events (executeInit W repoUrl s)) <> [] ->
      exists auth,
        In (Called (PlainClone
                      (filepath.Join [dotfilesBasedir; filepath.Base repoUrl])
                      true repoUrl auth) None)
           (events (executeInit W repoUrl s))).
Proof.
  unfold executeInit, baseName, getAuthMethod. flatten_run.
  unfold checkout_calls. cbn [collect].
  next_call W; [flatten_run | by (split; [| split; [left |]])]. cbn [collect].
  next_call W; [flatten_run | by (split; [| split; [left |]])]. cbn [collect].
  next_call W; [flatten_run | by (split; [| split; [left |]])]. cbn [collect].
  next_call W; [flatten_run | by (split; [| split; [left |]])]. cbn [collect].
  next_call W; flatten_run; cbn [collect].
  - split; [done |]. split; [right; by eexists |].
    intros _. exists a. cbn. tauto.
  - split; [by split |]. split; [right; by eexists |].
    intros _. exists a. cbn. tauto.
Qed.

(** *** [save] and [pull] *)

(** [save] commits at most once, and a commit it makes carries the
    message it was given, the [All] flag, and an author whose name and
    email are both non-empty. *)
Theorem save_commit_carries_author (repoName msg : string) (s : St) :
  Forall (fun c => c.1.1 = msg /\ c.1.2 = true
                   /\ Name c.2 <> "" /\ Email c.2 <> "")
    (commit_calls (events (executeSave W repoName msg s)))
  /\ length (commit_calls (events (executeSave W repoName msg s))) <= 1.
Proof.
  unfold executeSave, openWorkingRepo, getAuthor, getAuthMethod. flatten_run.
  unfold commit_calls. cbn [collect].
  next_call W; [flatten_run | by split; [constructor | cbn; lia]]. cbn [collect].
  next_call W; [flatten_run | by split; [constructor | cbn; lia]]. cbn [collect].
  next_call W; [flatten_run | by split; [constructor | cbn; lia]]. cbn [collect].
  cbn [Name Email].
  destruct (String.eqb_spec (environ W s2 "GIT_AUTHOR_NAME") "") as [Hn | Hn];
    cbn [orb].
  { rewrite bind_fail. by split; [constructor | cbn; lia]. }
  destruct (String.eqb_spec (environ W s2 "GIT_AUTHOR_EMAIL") "") as [He | He].
  { rewrite bind_fail. by split; [constructor | cbn; lia]. }
  flatten_run.
  next_call W; [flatten_run | by split; [repeat constructor | cbn; lia]].
  cbn [collect].
  next_call W; [flatten_run | by split; [repeat constructor | cbn; lia]].
  cbn [collect].
  next_call W; flatten_run; cbn [collect];
    by split; [repeat constructor | cbn; lia].
Qed.

(** [save] pushes at most once, and only after its commit succeeded; it
    succeeds exactly when that push was made and succeeded, and a failed
    push is the error [save] returns, with the commit already made. *)
Theorem save_pushes_after_commit (repoName msg : string) (s : St) :
  (res (executeSave W repoName msg s) = Ok tt
   <-> push_calls (events (executeSave W repoName msg s)) = [None])
  /\ (forall e,
        push_calls (events (executeSave W repoName msg s)) = [Some e] ->
        res (executeSave W repoName msg s) = Err e)
  /\ (push_calls (events (executeSave W repoName msg s)) = []
      \/ exists err,
           push_calls (events (executeSave W repoName msg s)) = [err])
  /\ (push_calls (events (executeSave W repoName msg s)) <> [] ->
      exists wt author,
        In (Called (Commit wt msg true author) None)
           (events (executeSave W repoName msg s))).
Proof.
  unfold executeSave, openWorkingRepo, getAuthor, getAuthMethod. flatten_run.
  unfold push_calls. cbn [collect].
  next_call W; [flatten_run | by (split; [| split; [| split; [left |]]])].
  cbn [collect].
  next_call W; [flatten_run | by (split; [| split; [| split; [left |]]])].
  cbn [collect].
  next_call W; [flatten_run | by (split; [| split; [| split; [left |]]])].
  cbn [collect]. cbn [Name Email].
  destruct (String.eqb (environ W s2 "GIT_AUTHOR_NAME") ""
            || String.eqb (environ W s2 "GIT_AUTHOR_EMAIL") "").
  { rewrite bind_fail. by (split; [| split; [| split; [left |]]]). }
  flatten_run.
  next_call W; [flatten_run | by (split; [| split; [| split; [left |]]])].
  cbn [collect].
  next_call W; [flatten_run | by (split; [| split; [| split; [left |]]])].
  cbn [collect].
  next_call W; flatten_run; cbn [collect].
  - split; [done |]. split; [done |]. split; [right; by eexists |].
    intros _. eexists _, _. cbn. tauto.
  - split; [by split |]. split; [by intros ? [= ->] |].
    split; [right; by eexists |].
    intros _. eexists _, _. cbn. tauto.
Qed.

(** Once the repository of the name is open, [pull] asks the SSH agent
    and then pulls into that repository with the credentials the agent
    gave; what the pull returns is what [pull] returns.  If the agent
    lookup fails, [pull] returns that error and does not pull. *)
Theorem pull_contract (repoName : string) (s s1 s2 : St)
    (st : Storer) (repo : Repository) :
  respond W s (NewStorage (filepath.Join [dotfilesBasedir; repoName +:+ ".git"]))
    = (Ok st, s1) ->
  respond W s1 (Open st dotfilesWorkdir) = (Ok repo, s2) ->
  (forall auth s3,
     respond W s2 (NewSSHAgentAuth "git") = (Ok auth, s3) ->
     executePull W repoName s =
       {| res := (respond W s3 (Pull repo auth)).1;
          final := (respond W s3 (Pull repo auth)).2;
          events :=
            [Called (NewStorage (filepath.Join [dotfilesBasedir; repoName +:+ ".git"])) None;
             Called (Open st dotfilesWorkdir) None;
             Called (NewSSHAgentAuth "git") None;
             Called (Pull repo auth)
               (result_err (respond W s3 (Pull repo auth)).1)] |})
  /\ (forall e s3,
        respond W s2 (NewSSHAgentAuth "git") = (Err e, s3) ->
        executePull W repoName s =
          {| res := Err e; final := s3;
             events :=
               [Called (NewStorage (filepath.Join [dotfilesBasedir; repoName +:+ ".git"])) None;
                Called (Open st dotfilesWorkdir) None;
                Called (NewSSHAgentAuth "git") (Some e)] |}).
Proof.
  intros E1 E2. split.
  - intros auth s3 E3.
    unfold executePull, openWorkingRepo, getAuthMethod. flatten_run.
    rewrite (bind_call_ok W _ _ _ _ _ E1). flatten_run.
    rewrite (bind_call_ok W _ _ _ _ _ E2). flatten_run.
    rewrite (bind_call_ok W _ _ _ _ _ E3). flatten_run.
    rewrite (bind_ret_r (call W (Pull repo auth))), call_run. done.
  - intros e s3 E3.
    unfold executePull, openWorkingRepo, getAuthMethod. flatten_run.
    rewrite (bind_call_ok W _ _ _ _ _ E1). flatten_run.
    rewrite (bind_call_ok W _ _ _ _ _ E2). flatten_run.
    by rewrite (bind_call_err W _ _ _ _ _ E3).
Qed.

(** *** [init] from a URL that does not end in [.git] *)

Lemma distinct_by_suffix (a b x url : string) :
  HasSuffix a x = true ->
  HasSuffix b x = false ->
  Forall (fun c : string * bool * string => [a] <> [c.1.1]) [(b, true, url)].
Proof.
  intros Ha Hb. constructor; [| by constructor].
  cbn [fst]. intros [= ->]. congruence.
Qed.

(** A repository initialised from a URL whose last element does not end
    in [.git] cannot be opened by the other commands, under any name: the
    path [init] clones to is not a storage path [openWorkingRepo]
    derives, since every such path ends in [.git]. *)
Theorem init_without_git_suffix_is_never_opened
    (pre seg slashes repoName : string) (s s' : St) :
  is_dir_prefix pre = true ->
  is_element seg = true ->
  seg <> "." ->
  seg <> ".." ->
  HasSuffix seg ".git" = false ->
  all_separators slashes = true ->
  Forall (fun c => storage_calls (events (openWorkingRepo W repoName s')) <> [c.1.1])
    (clone_calls (events (executeInit W (pre +:+ seg +:+ slashes) s))).
Proof.
  intros Hpre Helem Hdot Hdotdot Hgit Hsl.
  rewrite clone_calls_executeInit.
  rewrite (FilepathFacts.Base_element pre seg slashes Hpre Helem Hsl).
  rewrite storage_calls_openWorkingRepo.
  destruct (respond W s (NewSSHAgentAuth "git")).1; [| by constructor].
  apply (distinct_by_suffix _ _ ".git").
  - by apply CleanFacts.Join_git_suffix.
  - by apply CleanFacts.Join_element_suffix.
Qed.

End Coverage.

(** ** The further properties on the simulated world *)

Lemma status_of_named_repo_witness :
  executeStatus sim_world "core" sim_home = status_one sim_world "core" sim_home
  /\ Forall (fun o => is_readdir o = false /\ uses_repo_storage "core" o = true)
       (called (events (executeStatus sim_world "core" sim_home))).
Proof.
  apply (status_of_named_repo sim_world "core" sim_home). discriminate.
Defined.

Lemma status_basedir_edge_cases_witness :
  executeStatus sim_world "" sim_nobase =
    {| res := Err "open ./dotfiles: no such file or directory";
       final := sim_nobase;
       events := [Called (ReadDir dotfilesBasedir)
                    (Some "open ./dotfiles: no such file or directory")] |}
  /\ executeStatus sim_world "" sim_empty =
       {| res := Ok tt; final := sim_empty;
          events := [Called (ReadDir dotfilesBasedir) None] |}.
Proof.
  split.
  - exact (proj1 (status_basedir_edge_cases sim_world sim_nobase sim_nobase)
             _ eq_refl).
  - exact (proj2 (status_basedir_edge_cases sim_world sim_empty sim_empty)
             eq_refl).
Defined.

Lemma list_and_status_names_witness :
  list_name "core.git" = "core" /\ status_name "core.git" = "core".
Proof.
  exact (proj1 (list_and_status_names "core.git") "core" eq_refl).
Defined.

Lemma main_exit_status_witness :
  ~ In "push" dispatched
  /\ main sim_world "push" sim_args sim_home
     = {| res := Ok 0; final := sim_home; events := [] |}.
Proof.
  assert (~ In "push" dispatched) as Hnot.
  { intros H. repeat (destruct H as [H | H]; [discriminate H |]). exact H. }
  split; [exact Hnot |].
  exact (proj2 (proj2 (proj2 (proj2 (proj2 (proj2
           (main_exit_status sim_world sim_args sim_home))))))
           "push" Hnot).
Defined.

Lemma init_clone_is_opened_by_stem_witness :
  clone_calls (events (executeInit sim_world
                         "git@bitbucket.org:andoco/dotfiles-core.git" sim_home))
  = [("dotfiles/dotfiles-core.git", true,
      "git@bitbucket.org:andoco/dotfiles-core.git")]
  /\ Forall (fun c => storage_calls (events (openWorkingRepo sim_world
                                               "dotfiles-core" sim_home))
                      = [c.1.1])
       (clone_calls (events (executeInit sim_world
                               "git@bitbucket.org:andoco/dotfiles-core.git"
                               sim_home))).
Proof.
  split; [vm_compute; reflexivity |].
  exact (init_clone_is_opened_by_stem sim_world
           "git@bitbucket.org:andoco/" "dotfiles-core" "" sim_home sim_home
           eq_refl eq_refl eq_refl).
Defined.

Lemma init_without_git_suffix_is_never_opened_witness :
  clone_calls (events (executeInit sim_world
                         "https://example.org/u/dotfiles" sim_home))
  = [("dotfiles/dotfiles", true, "https://example.org/u/dotfiles")]
  /\ Forall (fun c => storage_calls (events (openWorkingRepo sim_world
                                               "dotfiles" sim_home))
                      <> [c.1.1])
       (clone_calls (events (executeInit sim_world
                               "https://example.org/u/dotfiles" sim_home))).
Proof.
  split; [vm_compute; reflexivity |].
  apply (init_without_git_suffix_is_never_opened sim_world
           "https://example.org/u/" "dotfiles" "" "dotfiles" sim_home sim_home);
    first [reflexivity | discriminate].
Defined.

Lemma init_checks_out_after_clone_witness :
  checkout_calls (events (executeInit sim_world
                            "git@bitbucket.org:andoco/dotfiles-core.git"
                            sim_home)) = [(true, None)]
  /\ res (executeInit sim_world
            "git@bitbucket.org:andoco/dotfiles-core.git" sim_home) = Ok tt.
Proof.
  assert (checkout_calls (events (executeInit sim_world
                                    "git@bitbucket.org:andoco/dotfiles-core.git"
                                    sim_home)) = [(true, None)]) as H
    by (vm_compute; reflexivity).
  split; [exact H |].
  exact (proj2 (proj1 (init_checks_out_after_clone sim_world
                         "git@bitbucket.org:andoco/dotfiles-core.git" sim_home))
           H).
Defined.

Lemma pull_contract_witness :
  executePull sim_world "core" sim_home =
    {| res := Ok tt; final := sim_home;
       events :=
         [Called (NewStorage "dotfiles/core.git") None;
          Called (Open {| storer_fs := "dotfiles/core.git" |} dotfilesWorkdir) None;
          Called (NewSSHAgentAuth "git") None;
          Called (Pull {| repo_Storer := {| storer_fs := "dotfiles/core.git" |};
                          repo_wt := Some "./workdir" |}
                    {| auth_user := "git" |}) None] |}
  /\ res (executePull sim_world "core" sim_offline) = Err "connection refused".
Proof.
  split.
  - exact (proj1 (pull_contract sim_world "core" sim_home sim_home sim_home
                    {| storer_fs := "dotfiles/core.git" |}
                    {| repo_Storer := {| storer_fs := "dotfiles/core.git" |};
                       repo_wt := Some "./workdir" |}
                    eq_refl eq_refl)
             {| auth_user := "git" |} sim_home eq_refl).
  - exact (f_equal res
             (proj1 (pull_contract sim_world "core" sim_offline sim_offline
                       sim_offline
                       {| storer_fs := "dotfiles/core.git" |}
                       {| repo_Storer := {| storer_fs := "dotfiles/core.git" |};
                          repo_wt := Some "./workdir" |}
                       eq_refl eq_refl)
                {| auth_user := "git" |} sim_offline eq_refl)).
Defined.
